(** * Functional options and the channel-based request limiter

  A shallow embedding of [patterns/foptions.go] (the functional-options
  builders of the HTTP client and transport wrappers) and of
  [patterns/limiter/client-limiter.go] (a worker pool that consumes a
  buffered job channel and is stopped, restarted and grown through HTTP
  handlers), followed by the properties established about them.

  Goroutines are modelled by an interleaving semantics: every goroutine
  has a program counter, a label names the goroutine that moves and what
  it observed, and [step] is the (partial, executable) transition
  function.  A blocked statement is a label that is not enabled. *)

From stdpp Require Import base option list numbers.
From Stdlib Require Import ZArith Lia.

Local Open Scope Z_scope.

(* ===================================================================== *)
(** ** patterns/foptions.go                                               *)
(* ===================================================================== *)

Module patterns.

(** [time.Duration] is a count of nanoseconds. *)
Definition Duration := Z.
Definition Second : Duration := 1000000000.

(** The fields of [net.Dialer] the constructor sets. *)
Record Dialer := {
  dTimeout : Duration;
  dKeepAlive : Duration;
  dDualStack : bool
}.

Inductive ProxyFunc := ProxyFromEnvironment.

(** The fields of [http.Transport] the constructor and the options touch;
    the fields never mentioned keep Go's zero value. *)
Record HttpTransport := {
  Proxy : option ProxyFunc;
  DialContext : option Dialer;
  ForceAttemptHTTP2 : bool;
  MaxIdleConns : Z;
  MaxIdleConnsPerHost : Z;
  MaxConnsPerHost : Z;
  IdleConnTimeout : Duration;
  TLSHandshakeTimeout : Duration;
  ExpectContinueTimeout : Duration
}.

(** [type TransportWrapper struct { Tr *http.Transport }]; a nil pointer is
    [None]. *)
Record TransportWrapper := { Tr : option HttpTransport }.

(** The [http.RoundTripper] stored in a client: the package default or a
    [*http.Transport] (possibly a nil one). *)
Inductive RoundTripper :=
| DefaultTransport
| TransportPtr (t : option HttpTransport).

Record HttpClient := {
  Transport : RoundTripper;
  CheckRedirect : option unit;
  Jar : option unit;
  Timeout : Duration
}.

(** [type ClientWrapper struct { Cl http.Client }] *)
Record ClientWrapper := { Cl : HttpClient }.

(** An option mutates the wrapper it is handed; [None] is a panic (a nil
    function value, a nil pointer dereference). *)
Definition ClientOption := ClientWrapper -> option ClientWrapper.
Definition TransportOption := TransportWrapper -> option TransportWrapper.

(** [for _, opt := range opts { opt(cl) }] *)
Fixpoint apply_opts {A : Type} (opts : list (A -> option A)) (a : A) : option A :=
  match opts with
  | [] => Some a
  | opt :: rest =>
      match opt a with
      | Some a' => apply_opts rest a'
      | None => None
      end
  end.

Definition default_client : ClientWrapper :=
  {| Cl := {| Transport := DefaultTransport;
              CheckRedirect := None;
              Jar := None;
              Timeout := 0 |} |}.

Definition NewClientWrapper (opts : list ClientOption) : option ClientWrapper :=
  apply_opts opts default_client.

Definition set_Timeout (t : Duration) (c : HttpClient) : HttpClient :=
  {| Transport := Transport c; CheckRedirect := CheckRedirect c;
     Jar := Jar c; Timeout := t |}.

Definition set_Transport (r : RoundTripper) (c : HttpClient) : HttpClient :=
  {| Transport := r; CheckRedirect := CheckRedirect c;
     Jar := Jar c; Timeout := Timeout c |}.

(** [c.Cl.Timeout = t] *)
Definition TimeoutOpt (t : Duration) : ClientOption :=
  fun c => Some {| Cl := set_Timeout t (Cl c) |}.

(** [c.Cl.Transport = tr.Tr]; [tr] is a [*TransportWrapper] and reading
    [tr.Tr] through a nil [tr] panics.  The pointer stored in the client is
    represented by the transport it points to when the option runs. *)
Definition TransportOpt (tr : option TransportWrapper) : ClientOption :=
  fun c =>
    match tr with
    | Some w => Some {| Cl := set_Transport (TransportPtr (Tr w)) (Cl c) |}
    | None => None
    end.

Definition default_dialer : Dialer :=
  {| dTimeout := 30 * Second; dKeepAlive := 30 * Second; dDualStack := true |}.

Definition default_http_transport : HttpTransport :=
  {| Proxy := Some ProxyFromEnvironment;
     DialContext := Some default_dialer;
     ForceAttemptHTTP2 := true;
     MaxIdleConns := 100;
     MaxIdleConnsPerHost := 0;
     MaxConnsPerHost := 0;
     IdleConnTimeout := 90 * Second;
     TLSHandshakeTimeout := 10 * Second;
     ExpectContinueTimeout := 1 * Second |}.

Definition default_transport : TransportWrapper :=
  {| Tr := Some default_http_transport |}.

Definition NewTransportWrapper (opts : list TransportOption) : option TransportWrapper :=
  apply_opts opts default_transport.

(** A write [t.Tr.f = v] through the wrapper's pointer; it panics when the
    pointer is nil. *)
Definition through_Tr (f : HttpTransport -> HttpTransport) : TransportOption :=
  fun t =>
    match Tr t with
    | Some h => Some {| Tr := Some (f h) |}
    | None => None
    end.

Definition set_MaxIdleConns (v : Z) (h : HttpTransport) : HttpTransport :=
  {| Proxy := Proxy h; DialContext := DialContext h;
     ForceAttemptHTTP2 := ForceAttemptHTTP2 h;
     MaxIdleConns := v;
     MaxIdleConnsPerHost := MaxIdleConnsPerHost h;
     MaxConnsPerHost := MaxConnsPerHost h;
     IdleConnTimeout := IdleConnTimeout h;
     TLSHandshakeTimeout := TLSHandshakeTimeout h;
     ExpectContinueTimeout := ExpectContinueTimeout h |}.

Definition set_MaxIdleConnsPerHost (v : Z) (h : HttpTransport) : HttpTransport :=
  {| Proxy := Proxy h; DialContext := DialContext h;
     ForceAttemptHTTP2 := ForceAttemptHTTP2 h;
     MaxIdleConns := MaxIdleConns h;
     MaxIdleConnsPerHost := v;
     MaxConnsPerHost := MaxConnsPerHost h;
     IdleConnTimeout := IdleConnTimeout h;
     TLSHandshakeTimeout := TLSHandshakeTimeout h;
     ExpectContinueTimeout := ExpectContinueTimeout h |}.

Definition set_MaxConnsPerHost (v : Z) (h : HttpTransport) : HttpTransport :=
  {| Proxy := Proxy h; DialContext := DialContext h;
     ForceAttemptHTTP2 := ForceAttemptHTTP2 h;
     MaxIdleConns := MaxIdleConns h;
     MaxIdleConnsPerHost := MaxIdleConnsPerHost h;
     MaxConnsPerHost := v;
     IdleConnTimeout := IdleConnTimeout h;
     TLSHandshakeTimeout := TLSHandshakeTimeout h;
     ExpectContinueTimeout := ExpectContinueTimeout h |}.

Definition set_IdleConnTimeout (v : Duration) (h : HttpTransport) : HttpTransport :=
  {| Proxy := Proxy h; DialContext := DialContext h;
     ForceAttemptHTTP2 := ForceAttemptHTTP2 h;
     MaxIdleConns := MaxIdleConns h;
     MaxIdleConnsPerHost := MaxIdleConnsPerHost h;
     MaxConnsPerHost := MaxConnsPerHost h;
     IdleConnTimeout := v;
     TLSHandshakeTimeout := TLSHandshakeTimeout h;
     ExpectContinueTimeout := ExpectContinueTimeout h |}.

Definition MaxIdleCons (ic : Z) : TransportOption := through_Tr (set_MaxIdleConns ic).
Definition MaxIdleConsPerHost (ich : Z) : TransportOption :=
  through_Tr (set_MaxIdleConnsPerHost ich).
Definition MaxConsPerHost (cph : Z) : TransportOption := through_Tr (set_MaxConnsPerHost cph).
Definition IdleConTimeout (ict : Duration) : TransportOption :=
  through_Tr (set_IdleConnTimeout ict).

(** The options the package exports, as syntax, to speak about which option
    of a list is the rightmost one that sets a field. *)
Inductive client_opt :=
| OTimeout (t : Duration)
| OTransport (tr : option TransportWrapper).

Definition client_denote (o : client_opt) : ClientOption :=
  match o with
  | OTimeout t => TimeoutOpt t
  | OTransport tr => TransportOpt tr
  end.

Inductive transport_opt :=
| OMaxIdleCons (ic : Z)
| OMaxIdleConsPerHost (ich : Z)
| OMaxConsPerHost (cph : Z)
| OIdleConTimeout (ict : Duration).

Definition transport_denote (o : transport_opt) : TransportOption :=
  match o with
  | OMaxIdleCons v => MaxIdleCons v
  | OMaxIdleConsPerHost v => MaxIdleConsPerHost v
  | OMaxConsPerHost v => MaxConsPerHost v
  | OIdleConTimeout v => IdleConTimeout v
  end.

(** The value the rightmost [Timeout] option of a list carries, [d] when
    there is none. *)
Fixpoint last_timeout (d : Duration) (os : list client_opt) : Duration :=
  match os with
  | [] => d
  | OTimeout t :: rest => last_timeout t rest
  | OTransport _ :: rest => last_timeout d rest
  end.

Fixpoint last_transport (d : RoundTripper) (os : list client_opt) : RoundTripper :=
  match os with
  | [] => d
  | OTimeout _ :: rest => last_transport d rest
  | OTransport (Some w) :: rest => last_transport (TransportPtr (Tr w)) rest
  | OTransport None :: rest => last_transport d rest
  end.

Fixpoint last_max_idle (d : Z) (os : list transport_opt) : Z :=
  match os with
  | [] => d
  | OMaxIdleCons v :: rest => last_max_idle v rest
  | _ :: rest => last_max_idle d rest
  end.

Fixpoint last_idle_timeout (d : Duration) (os : list transport_opt) : Duration :=
  match os with
  | [] => d
  | OIdleConTimeout v :: rest => last_idle_timeout v rest
  | _ :: rest => last_idle_timeout d rest
  end.


(** *** What a list of the package's options builds *)

Fixpoint last_idle_per_host (d : Z) (os : list transport_opt) : Z :=
  match os with
  | [] => d
  | OMaxIdleConsPerHost v :: rest => last_idle_per_host v rest
  | _ :: rest => last_idle_per_host d rest
  end.

Fixpoint last_conns_per_host (d : Z) (os : list transport_opt) : Z :=
  match os with
  | [] => d
  | OMaxConsPerHost v :: rest => last_conns_per_host v rest
  | _ :: rest => last_conns_per_host d rest
  end.

(** The transport [h] with each of the four fields an option can write
    replaced by the value of the rightmost option of [os] that writes it. *)
Definition overwrite (h : HttpTransport) (os : list transport_opt) : HttpTransport :=
  {| Proxy := Proxy h; DialContext := DialContext h;
     ForceAttemptHTTP2 := ForceAttemptHTTP2 h;
     MaxIdleConns := last_max_idle (MaxIdleConns h) os;
     MaxIdleConnsPerHost := last_idle_per_host (MaxIdleConnsPerHost h) os;
     MaxConnsPerHost := last_conns_per_host (MaxConnsPerHost h) os;
     IdleConnTimeout := last_idle_timeout (IdleConnTimeout h) os;
     TLSHandshakeTimeout := TLSHandshakeTimeout h;
     ExpectContinueTimeout := ExpectContinueTimeout h |}.

(** Whether some option of the list is [Transport(nil)]. *)
Definition has_nil_wrapper (os : list client_opt) : bool :=
  existsb (fun o => match o with OTransport None => true | _ => false end) os.

(** Whether two options write the same field. *)
Definition same_client_field (a b : client_opt) : bool :=
  match a, b with
  | OTimeout _, OTimeout _ | OTransport _, OTransport _ => true
  | _, _ => false
  end.

Definition same_transport_field (a b : transport_opt) : bool :=
  match a, b with
  | OMaxIdleCons _, OMaxIdleCons _
  | OMaxIdleConsPerHost _, OMaxIdleConsPerHost _
  | OMaxConsPerHost _, OMaxConsPerHost _
  | OIdleConTimeout _, OIdleConTimeout _ => true
  | _, _ => false
  end.

End patterns.

(* ===================================================================== *)
(** ** patterns/limiter/client-limiter.go                                 *)
(* ===================================================================== *)

Module limiter.

(** [queue chan int]: a buffered channel of jobs, with the jobs waiting in
    it (oldest first), its capacity, and whether it has been closed.  The
    program makes it with a capacity of 10; an unbuffered queue (capacity
    0, where a send meets a receive) is not modelled. *)
Record chan_int := {
  buf : list Z;
  cap : nat;
  qclosed : bool
}.

(** [make(chan int, c)] *)
Definition make_chan (c : nat) : chan_int :=
  {| buf := []; cap := c; qclosed := false |}.

(** A goroutine running [startWorker].
    - [WNew]: [limit.Add(1)] has run and the [go] statement is pending or
      the goroutine has not been scheduled yet;
    - [WRange]: at [for ww := range c.queue], waiting for a job;
    - [WSelect ww]: holds [ww], at the [select];
    - [WRequest ww last]: calls [c.request(ww)]; [last] tells that the
      [<-c.done] case was taken, so the worker returns afterwards;
    - [WExited]: returned, the deferred [c.limit.Done()] has run. *)
Inductive wstate :=
| WNew
| WRange
| WSelect (ww : Z)
| WRequest (ww : Z) (last : bool)
| WExited.

(** A goroutine serving [/stop].
    - [HSend ch]: parked in [c.done <- struct{}{}] on channel [ch];
    - [HClose]: the send was received, about to run [close(c.done)];
    - [HReturned]: the handler returned;
    - [HPanicked]: the handler panicked ([net/http] recovers the panic of a
      handler and drops the connection; the process goes on). *)
Inductive hstate :=
| HSend (ch : nat)
| HClose
| HReturned
| HPanicked.

(** The producer goroutine of [main]: the jobs it has still to send, then
    its deferred [wg.Done()]. *)
Inductive pstate :=
| PSend (todo : list Z)
| PDone.

(** [main] after it has started the server and the producer: inside
    [ctrl.wgroup()] with loop index [i], then past [wg.Wait()] about to
    [close(work)], then about to return. *)
Inductive mstate :=
| MWgroup (i : nat)
| MClose
| MReturn.

(** What the program prints. *)
Inductive output :=
| OutSendOnDone
| OutError
| OutRequest (i : Z)
| OutSentSignal
| OutRestarted.

#[global] Instance wstate_eq_dec : EqDecision wstate.
Proof. solve_decision. Defined.

#[global] Instance hstate_eq_dec : EqDecision hstate.
Proof. solve_decision. Defined.

#[global] Instance output_eq_dec : EqDecision output.
Proof. solve_decision. Defined.

(** The controller and the goroutines around it.  [dones] is the store of
    the [chan struct{}] values ever made ([true]: closed) and [done] is the
    one the field [c.done] points to; [limit] and [wg] are the counters of
    the two wait groups; [groups] holds the loop index of each
    [go c.wgroup()] started by [/start]; [halted] is the exit status once
    the process has ended. *)
Record state := {
  queue : chan_int;
  dones : list bool;
  done : nat;
  limit : Z;
  wg : Z;
  workers : list wstate;
  stops : list hstate;
  groups : list nat;
  producer : pstate;
  main : mstate;
  out : list output;
  halted : option Z
}.

(** What a goroutine does in one step, with what it observed.
    - [Enq j]: the producer's [work <- i] puts [j] in the buffer;
      [EnqClosed]: it finds the queue closed and panics;
      [ProducerExit]: its loop is over, the deferred [wg.Done()] runs;
    - [MainSpawn]: one iteration of [wgroup] in [main]; [MainWait]:
      [wgroup] is over and [wg.Wait()] returns; [MainClose]: [close(work)];
      [MainReturn]: [main] returns, which ends the process;
    - [GroupSpawn g]: one iteration of the [wgroup] number [g] started by
      [/start];
    - [WBegin w]: worker [w] begins to run; [WDeq w j]: its [range]
      receives [j]; [WDrained w]: its [range] finds the queue closed and
      empty, the worker returns; [WSel w signaled]: its [select], taking
      the [<-c.done] case ([true]) or the [default] case ([false]);
      [WReq w j ok]: its [c.request(j)], the downstream call succeeding or
      not;
    - [StopCall]: a request on [/stop] is served up to the send on
      [c.done]; [StopClose h]: handler [h] runs [close(c.done)] and
      returns; [Start], [AddWorker]: a request on [/start], on
      [/worker/add], is served;
    - [ServerFail]: [http.ListenAndServe] returns its error and [log.Fatal]
      ends the process.

    The grain of a step: [WSel] reads the field [c.done] and communicates
    on the channel it names in one step, so a [/start] never falls between
    the two; a failing [WReq] prints the error and calls [os.Exit(1)] in
    one step; a queue of capacity 0 (a rendezvous) has no enabled send, the
    source's queue has capacity 10. *)
Inductive label :=
| Enq (j : Z)
| EnqClosed
| ProducerExit
| MainSpawn
| MainWait
| MainClose
| MainReturn
| GroupSpawn (g : nat)
| WBegin (w : nat)
| WDeq (w : nat) (j : Z)
| WDrained (w : nat)
| WSel (w : nat) (signaled : bool)
| WReq (w : nat) (j : Z) (ok : bool)
| StopCall
| StopClose (h : nat)
| Start
| AddWorker
| ServerFail.

Definition with_queue (q : chan_int) (s : state) : state :=
  {| queue := q; dones := dones s; done := done s; limit := limit s; wg := wg s;
     workers := workers s; stops := stops s; groups := groups s;
     producer := producer s; main := main s; out := out s; halted := halted s |}.

Definition with_dones (ds : list bool) (d : nat) (s : state) : state :=
  {| queue := queue s; dones := ds; done := d; limit := limit s; wg := wg s;
     workers := workers s; stops := stops s; groups := groups s;
     producer := producer s; main := main s; out := out s; halted := halted s |}.

Definition with_limit (n : Z) (s : state) : state :=
  {| queue := queue s; dones := dones s; done := done s; limit := n; wg := wg s;
     workers := workers s; stops := stops s; groups := groups s;
     producer := producer s; main := main s; out := out s; halted := halted s |}.

Definition with_wg (n : Z) (s : state) : state :=
  {| queue := queue s; dones := dones s; done := done s; limit := limit s; wg := n;
     workers := workers s; stops := stops s; groups := groups s;
     producer := producer s; main := main s; out := out s; halted := halted s |}.

Definition with_workers (ws : list wstate) (s : state) : state :=
  {| queue := queue s; dones := dones s; done := done s; limit := limit s; wg := wg s;
     workers := ws; stops := stops s; groups := groups s;
     producer := producer s; main := main s; out := out s; halted := halted s |}.

Definition with_stops (hs : list hstate) (s : state) : state :=
  {| queue := queue s; dones := dones s; done := done s; limit := limit s; wg := wg s;
     workers := workers s; stops := hs; groups := groups s;
     producer := producer s; main := main s; out := out s; halted := halted s |}.

Definition with_groups (gs : list nat) (s : state) : state :=
  {| queue := queue s; dones := dones s; done := done s; limit := limit s; wg := wg s;
     workers := workers s; stops := stops s; groups := gs;
     producer := producer s; main := main s; out := out s; halted := halted s |}.

Definition with_producer (p : pstate) (s : state) : state :=
  {| queue := queue s; dones := dones s; done := done s; limit := limit s; wg := wg s;
     workers := workers s; stops := stops s; groups := groups s;
     producer := p; main := main s; out := out s; halted := halted s |}.

Definition with_main (m : mstate) (s : state) : state :=
  {| queue := queue s; dones := dones s; done := done s; limit := limit s; wg := wg s;
     workers := workers s; stops := stops s; groups := groups s;
     producer := producer s; main := m; out := out s; halted := halted s |}.

Definition print (o : output) (s : state) : state :=
  {| queue := queue s; dones := dones s; done := done s; limit := limit s; wg := wg s;
     workers := workers s; stops := stops s; groups := groups s;
     producer := producer s; main := main s; out := out s ++ [o]; halted := halted s |}.

(** The process ends with status [code]: [os.Exit(code)], an unrecovered
    panic (status 2), or [main] returning (status 0). *)
Definition exit (code : Z) (s : state) : state :=
  {| queue := queue s; dones := dones s; done := done s; limit := limit s; wg := wg s;
     workers := workers s; stops := stops s; groups := groups s;
     producer := producer s; main := main s; out := out s; halted := Some code |}.

(** Whether the done channel at [ch] has been closed. *)
Definition chan_closed (s : state) (ch : nat) : bool :=
  default false (dones s !! ch).

Definition is_sender (ch : nat) (h : hstate) : bool :=
  match h with
  | HSend c => Nat.eqb c ch
  | _ => false
  end.

(** The first handler parked in a send on [ch], in the order of the calls. *)
Fixpoint find_sender (ch : nat) (hs : list hstate) : option nat :=
  match hs with
  | [] => None
  | h :: rest =>
      if is_sender ch h then Some O
      else match find_sender ch rest with
           | Some i => Some (S i)
           | None => None
           end
  end.

(** What the [case <-c.done] of a worker's [select] finds: a receive can
    proceed when the channel is closed or a sender is parked on it;
    otherwise the [default] case runs. *)
Definition observe (s : state) : bool :=
  chan_closed s (done s) ||
  match find_sender (done s) (stops s) with Some _ => true | None => false end.

(** Closing a channel wakes every sender parked on it with a panic. *)
Definition panic_senders (ch : nat) (hs : list hstate) : list hstate :=
  map (fun h => if is_sender ch h then HPanicked else h) hs.

(** [c.limit.Add(1)] followed by [go c.startWorker()]. *)
Definition spawn (s : state) : state :=
  with_workers (workers s ++ [WNew]) (with_limit (limit s + 1) s).

(** The return of worker [w] with its deferred [c.limit.Done()]; a counter
    that would become negative panics, which ends the process. *)
Definition worker_return (w : nat) (s : state) : state :=
  if limit s <=? 0 then exit 2 s
  else with_workers (<[w := WExited]> (workers s)) (with_limit (limit s - 1) s).

Section step.

(** The number of workers [wgroup] starts: [5] in the source. *)
Variable nworkers : nat.

Definition step (s : state) (l : label) : option state :=
  match halted s with
  | Some _ => None
  | None =>
    match l with
    | Enq j =>
        match producer s with
        | PSend (i :: todo) =>
            if Z.eqb i j && negb (qclosed (queue s))
               && Nat.ltb (length (buf (queue s))) (cap (queue s))
            then Some (with_producer (PSend todo)
                         (with_queue {| buf := buf (queue s) ++ [i];
                                        cap := cap (queue s);
                                        qclosed := false |} s))
            else None
        | _ => None
        end
    | EnqClosed =>
        match producer s with
        | PSend (_ :: _) => if qclosed (queue s) then Some (exit 2 s) else None
        | _ => None
        end
    | ProducerExit =>
        match producer s with
        | PSend [] =>
            if wg s <=? 0 then Some (exit 2 s)
            else Some (with_producer PDone (with_wg (wg s - 1) s))
        | _ => None
        end
    | MainSpawn =>
        match main s with
        | MWgroup i =>
            if Nat.ltb i nworkers then Some (with_main (MWgroup (S i)) (spawn s))
            else None
        | _ => None
        end
    | MainWait =>
        match main s with
        | MWgroup i =>
            if negb (Nat.ltb i nworkers) && Z.eqb (wg s) 0
            then Some (with_main MClose s) else None
        | _ => None
        end
    | MainClose =>
        match main s with
        | MClose =>
            if qclosed (queue s) then Some (exit 2 s)
            else Some (with_main MReturn
                         (with_queue {| buf := buf (queue s);
                                        cap := cap (queue s);
                                        qclosed := true |} s))
        | _ => None
        end
    | MainReturn =>
        match main s with
        | MReturn => Some (exit 0 s)
        | _ => None
        end
    | GroupSpawn g =>
        match groups s !! g with
        | Some i =>
            if Nat.ltb i nworkers
            then Some (with_groups (<[g := S i]> (groups s)) (spawn s))
            else None
        | None => None
        end
    | WBegin w =>
        match workers s !! w with
        | Some WNew => Some (with_workers (<[w := WRange]> (workers s)) s)
        | _ => None
        end
    | WDeq w j =>
        match workers s !! w, buf (queue s) with
        | Some WRange, ww :: rest =>
            if Z.eqb ww j
            then Some (with_workers (<[w := WSelect ww]> (workers s))
                         (with_queue {| buf := rest;
                                        cap := cap (queue s);
                                        qclosed := qclosed (queue s) |} s))
            else None
        | _, _ => None
        end
    | WDrained w =>
        match workers s !! w, buf (queue s) with
        | Some WRange, [] =>
            if qclosed (queue s) then Some (worker_return w s) else None
        | _, _ => None
        end
    | WSel w signaled =>
        match workers s !! w with
        | Some (WSelect ww) =>
            if chan_closed s (done s) then
              if signaled
              then Some (with_workers (<[w := WRequest ww true]> (workers s))
                           (print OutSendOnDone s))
              else None
            else
              match find_sender (done s) (stops s) with
              | Some h =>
                  if signaled
                  then Some (with_workers (<[w := WRequest ww true]> (workers s))
                               (with_stops (<[h := HClose]> (stops s))
                                  (print OutSendOnDone s)))
                  else None
              | None =>
                  if signaled then None
                  else Some (with_workers (<[w := WRequest ww false]> (workers s)) s)
              end
        | _ => None
        end
    | WReq w j ok =>
        match workers s !! w with
        | Some (WRequest ww last) =>
            if Z.eqb ww j then
              if ok then
                if last then Some (worker_return w (print (OutRequest ww) s))
                else Some (with_workers (<[w := WRange]> (workers s))
                             (print (OutRequest ww) s))
              else Some (exit 1 (print OutError s))
            else None
        | _ => None
        end
    | StopCall =>
        if chan_closed s (done s)
        then Some (with_stops (stops s ++ [HPanicked]) s)
        else Some (with_stops (stops s ++ [HSend (done s)]) s)
    | StopClose h =>
        match stops s !! h with
        | Some HClose =>
            if chan_closed s (done s)
            then Some (with_stops (<[h := HPanicked]> (stops s)) s)
            else Some (print OutSentSignal
                         (with_stops (<[h := HReturned]>
                                        (panic_senders (done s) (stops s)))
                            (with_dones (<[done s := true]> (dones s)) (done s) s)))
        | _ => None
        end
    | Start =>
        Some (print OutRestarted
                (with_groups (groups s ++ [O])
                   (with_dones (dones s ++ [false]) (length (dones s)) s)))
    | AddWorker => Some (spawn s)
    | ServerFail => Some (exit 1 s)
    end
  end.

(** An execution: the labels taken one after the other. *)
Fixpoint run (s : state) (tr : list label) : option state :=
  match tr with
  | [] => Some s
  | l :: tr' =>
      match step s l with
      | Some s' => run s' tr'
      | None => None
      end
  end.

End step.

(** [main] up to the call of [ctrl.wgroup()]: the channels are made, the
    server runs, [wg.Add(1)] has run and the producer is started. *)
Definition init (c : nat) (jobs : list Z) : state :=
  {| queue := make_chan c; dones := [false]; done := O; limit := 0; wg := 1;
     workers := []; stops := []; groups := [];
     producer := PSend jobs; main := MWgroup O; out := []; halted := None |}.

(** The constants of the source: a queue of 10, the jobs [0 .. 9999] and a
    pool of 5. *)
Definition queue_capacity : nat := 10.
Definition main_jobs : list Z := map Z.of_nat (seq 0 (Z.to_nat 10000)).
Definition default_workers : nat := 5.
Definition main_init : state := init queue_capacity main_jobs.

(** *** Reading an execution *)

Definition countb (p : label -> bool) (tr : list label) : nat :=
  length (List.filter p tr).

(** The jobs the producer put on the queue, in the order of the sends. *)
Fixpoint enqueued (tr : list label) : list Z :=
  match tr with
  | [] => []
  | Enq j :: tr' => j :: enqueued tr'
  | _ :: tr' => enqueued tr'
  end.

(** The jobs the workers received from the queue, in the order of the
    receives, each with the worker that got it. *)
Fixpoint deliveries (tr : list label) : list (nat * Z) :=
  match tr with
  | [] => []
  | WDeq w j :: tr' => (w, j) :: deliveries tr'
  | _ :: tr' => deliveries tr'
  end.

Definition delivered (tr : list label) : list Z := map snd (deliveries tr).

Definition is_deq (w : nat) (l : label) : bool :=
  match l with
  | WDeq w' _ => Nat.eqb w' w
  | _ => false
  end.

(** A call of [c.request] by worker [w], whatever its outcome. *)
Definition is_req (w : nat) (l : label) : bool :=
  match l with
  | WReq w' _ _ => Nat.eqb w' w
  | _ => false
  end.

(** A receive on the queue that reports [ok = false]: the [range] loop of a
    worker ends. *)
Definition is_drained (l : label) : bool :=
  match l with WDrained _ => true | _ => false end.

(** The jobs the producer has still to send. *)
Definition pending (p : pstate) : list Z :=
  match p with
  | PSend todo => todo
  | PDone => []
  end.

Definition is_start (l : label) : bool :=
  match l with Start => true | _ => false end.



Definition is_main_spawn (l : label) : bool :=
  match l with MainSpawn => true | _ => false end.

Definition is_group_spawn (g : nat) (l : label) : bool :=
  match l with GroupSpawn g' => Nat.eqb g' g | _ => false end.

Definition is_spawn (l : label) : bool :=
  match l with MainSpawn | GroupSpawn _ | AddWorker => true | _ => false end.

(** What the workers found at their [select], in the order of the checks:
    [true] when the [<-c.done] case was taken. *)
Fixpoint observations (tr : list label) : list bool :=
  match tr with
  | [] => []
  | WSel _ signaled :: tr' => signaled :: observations tr'
  | _ :: tr' => observations tr'
  end.

(** The part of an execution after the first call of [/stop]. *)
Fixpoint after_stop (tr : list label) : list label :=
  match tr with
  | [] => []
  | StopCall :: tr' => tr'
  | _ :: tr' => after_stop tr'
  end.

(** The jobs worker [w] executes after [/stop] was called. *)
Definition jobs_after_stop (w : nat) (tr : list label) : nat :=
  countb (is_req w) (after_stop tr).

(** The part of an execution after the first [close(c.done)] that went
    through or panicked. *)
Fixpoint after_close (tr : list label) : list label :=
  match tr with
  | [] => []
  | StopClose _ :: tr' => tr'
  | _ :: tr' => after_close tr'
  end.

(** The jobs worker [w] executes after a [/stop] handler ran its close. *)
Definition jobs_after_close (w : nat) (tr : list label) : nat :=
  countb (is_req w) (after_close tr).

Definition is_live (ws : wstate) : bool :=
  match ws with WExited => false | _ => true end.

(** The workers accounted for by [limit.Add(1)] that have not returned. *)
Definition live (ws : list wstate) : nat := length (List.filter is_live ws).

(** How far each [wgroup] loop has come: its index is the number of
    workers it has started, and never exceeds the bound of the loop. *)
Definition wgroup_progress (n : nat) (tr : list label) (s : state) : Prop :=
  match main s with
  | MWgroup i => countb is_main_spawn tr = i /\ (i <= n)%nat
  | _ => countb is_main_spawn tr = n
  end /\
  forall g, match groups s !! g with
            | Some i => countb (is_group_spawn g) tr = i /\ (i <= n)%nat
            | None => countb (is_group_spawn g) tr = 0%nat
            end.

(** Whether a worker holds a job it has received and not yet executed. *)
Definition holding (o : option wstate) : nat :=
  match o with
  | Some (WSelect _) | Some (WRequest _ _) => 1%nat
  | _ => 0%nat
  end.

(** The steps of an undisturbed run: the producer, [main] up to its
    [close(work)], and the workers with every downstream call succeeding.
    Left out are the three HTTP handlers, a failing downstream call, and
    the end of the process. *)
Definition quiet (l : label) : bool :=
  match l with
  | Enq _ | ProducerExit | MainSpawn | MainWait | MainClose
  | WBegin _ | WDeq _ _ | WDrained _ | WSel _ _ => true
  | WReq _ _ ok => ok
  | _ => false
  end.

(** The quiet labels that can be enabled in [s]. *)
Definition worker_moves (s : state) (w : nat) : list label :=
  match workers s !! w with
  | Some WNew => [WBegin w]
  | Some WRange =>
      match buf (queue s) with
      | j :: _ => [WDeq w j]
      | [] => [WDrained w]
      end
  | Some (WSelect _) => [WSel w true; WSel w false]
  | Some (WRequest j _) => [WReq w j true]
  | _ => []
  end.

Definition producer_moves (s : state) : list label :=
  match producer s with
  | PSend (j :: _) => [Enq j]
  | PSend [] => [ProducerExit]
  | PDone => []
  end.

Definition quiet_moves (s : state) : list label :=
  producer_moves s ++ [MainSpawn; MainWait; MainClose]
  ++ flat_map (worker_moves s) (seq 0 (length (workers s))).

(** The states one quiet step away. *)
Definition successors (n : nat) (s : state) : list state :=
  omap (step n s) (quiet_moves s).

(** Explores every undisturbed execution from [s], at most [fuel] steps
    deep: [true] when each of them ends, within [fuel] steps, in a state
    with no quiet step left that satisfies [final]. *)
Fixpoint explore (n : nat) (final : state -> bool) (fuel : nat) (s : state) : bool :=
  match fuel with
  | O => false
  | S fuel' =>
      match successors n s with
      | [] => final s
      | succs => forallb (explore n final fuel') succs
      end
  end.

(** No quiet step is enabled: the run cannot go on undisturbed. *)
Definition at_rest (n : nat) (s : state) : Prop :=
  forall l, quiet l = true -> step n s l = None.

(** The scenario of a queue of capacity 2 served by a pool of one worker,
    with the jobs 1, 2, 3 to enqueue. *)
Definition scenario : state := init 2 [1; 2; 3].

(** The worker has printed the requests 1, 2, 3 in this order and has
    returned, the queue is closed and empty, and [limit] is 0. *)
Definition scenario_final (s : state) : bool :=
  bool_decide (out s = [OutRequest 1; OutRequest 2; OutRequest 3] /\
               workers s = [WExited] /\
               buf (queue s) = [] /\ qclosed (queue s) = true /\
               limit s = 0).

(** A state of the program with one worker started: the worker holds job 0
    and is about to call [c.request(0)], job 1 is buffered and job 2 is
    still to be sent. *)
Definition calling_state : state :=
  {| queue := {| buf := [1]; cap := 10; qclosed := false |};
     dones := [false]; done := O; limit := 1; wg := 1;
     workers := [WRequest 0 false]; stops := []; groups := [];
     producer := PSend [2]; main := MWgroup 1; out := []; halted := None |}.

(** A state of the program after a complete [/stop]: the only worker took
    job 0, received the handoff and is about to run its last request; the
    handler has closed the done channel and returned. *)
Definition stopped_state : state :=
  {| queue := {| buf := []; cap := 10; qclosed := false |};
     dones := [true]; done := O; limit := 1; wg := 1;
     workers := [WRequest 0 true]; stops := [HReturned]; groups := [];
     producer := PSend [1; 2]; main := MWgroup 1;
     out := [OutSendOnDone; OutSentSignal]; halted := None |}.


(** With the done channel closed: how many more jobs a worker can take from
    the queue, and how many more requests it can make, before it returns.
    A worker that is yet to be added counts like one that has not begun;
    in a process that has ended nobody does anything. *)
Definition takes_left (o : option wstate) : nat :=
  match o with
  | Some (WSelect _) | Some (WRequest _ true) | Some WExited => 0%nat
  | _ => 1%nat
  end.

Definition takes_budget (s : state) (w : nat) : nat :=
  match halted s with
  | Some _ => 0%nat
  | None => takes_left (workers s !! w)
  end.

Definition requests_budget (s : state) (w : nat) : nat :=
  match halted s with
  | Some _ => 0%nat
  | None => (takes_left (workers s !! w) + holding (workers s !! w))%nat
  end.

(** An execution of the program in which [/stop] is called while worker 0
    holds job 0 and worker 1 waits for a job.  Worker 0 receives the
    handoff and returns after job 0.  Before the handler gets to its
    [close(c.done)], worker 1 takes and executes job 1 and takes job 2,
    for which its [select] runs the [default] case.  After the close it
    executes job 2, takes job 3, finds the channel closed, executes job 3
    and returns. *)
Definition race_trace : list label :=
  [MainSpawn; MainSpawn; WBegin 0; WBegin 1;
   Enq 0; Enq 1; Enq 2; Enq 3; Enq 4;
   WDeq 0 0;
   StopCall;
   WSel 0 true; WReq 0 0 true;
   WDeq 1 1; WSel 1 false; WReq 1 1 true;
   WDeq 1 2; WSel 1 false;
   StopClose 0;
   WReq 1 2 true;
   WDeq 1 3; WSel 1 true; WReq 1 3 true].

(** An execution from [stopped_state]: a worker is added after the stop,
    takes job 1, finds the channel closed, executes job 1 and returns;
    worker 0 executes the job it holds. *)
Definition late_worker_trace : list label :=
  [AddWorker; Enq 1; Enq 2; WBegin 1; WDeq 1 1; WSel 1 true; WReq 1 1 true;
   WReq 0 0 true].


(** *** Further readings of a state and of an execution *)

(** The bookkeeping of the two wait groups and of the queue's closing:
    [limit] counts the live workers, [wg] is 1 until the producer has
    finished, and the queue is closed exactly once [main] is past its
    [close(work)], which it reaches only after the producer has finished;
    no panic has ended the process. *)
Definition well_synchronised (s : state) : Prop :=
  limit s = Z.of_nat (live (workers s)) /\
  wg s = match producer s with PSend _ => 1 | PDone => 0 end /\
  match main s with
  | MWgroup _ => qclosed (queue s) = false
  | MClose => qclosed (queue s) = false /\ producer s = PDone
  | MReturn => qclosed (queue s) = true /\ producer s = PDone
  end /\
  halted s <> Some 2.

(** The step [l] that ends the process with status [code], a panic apart. *)
Definition ends_with (l : label) (code : Z) : Prop :=
  (code = 0 /\ l = MainReturn) \/
  (code = 1 /\ (l = ServerFail \/ exists w j, l = WReq w j false)).

(** The jobs worker [w] received from the queue, in order. *)
Fixpoint delivered_to (w : nat) (tr : list label) : list Z :=
  match tr with
  | [] => []
  | WDeq w' j :: tr' =>
      if Nat.eqb w' w then j :: delivered_to w tr' else delivered_to w tr'
  | _ :: tr' => delivered_to w tr'
  end.

(** The jobs for which worker [w] made a request that succeeded, in order. *)
Fixpoint executed_by (w : nat) (tr : list label) : list Z :=
  match tr with
  | [] => []
  | WReq w' j true :: tr' =>
      if Nat.eqb w' w then j :: executed_by w tr' else executed_by w tr'
  | _ :: tr' => executed_by w tr'
  end.

(** The job a worker has received and not yet executed, if any. *)
Definition held (o : option wstate) : list Z :=
  match o with
  | Some (WSelect j) | Some (WRequest j _) => [j]
  | _ => []
  end.

(** The jobs of the successful requests of all workers, in order. *)
Fixpoint executed (tr : list label) : list Z :=
  match tr with
  | [] => []
  | WReq _ j true :: tr' => j :: executed tr'
  | _ :: tr' => executed tr'
  end.

(** The jobs of the [request: ...] lines of the output, in order. *)
Fixpoint printed_requests (os : list output) : list Z :=
  match os with
  | [] => []
  | OutRequest j :: os' => j :: printed_requests os'
  | _ :: os' => printed_requests os'
  end.

Definition is_add (l : label) : bool :=
  match l with AddWorker => true | _ => false end.








Definition is_send_on_done (o : output) : bool :=
  match o with OutSendOnDone => true | _ => false end.


(** *** Undisturbed runs in general *)

(** The steps a worker in state [x] has before it in an undisturbed run,
    the job it holds included. *)
Definition worker_weight (x : wstate) : nat :=
  match x with
  | WNew => 2
  | WRange => 1
  | WSelect _ => 3
  | WRequest _ false => 2
  | WRequest _ true => 1
  | WExited => 0
  end%nat.

(** A bound on the quiet steps left: four for a job still to be sent (its
    send, its receive, the check and the request), three for a buffered
    one, one for the end of the producer, three for each worker [main] has
    still to start (the start, the begin and the return), two for [main]'s
    wait and close, and the steps its workers have before them. *)
Definition work_left (n : nat) (s : state) : nat :=
  match halted s with
  | Some _ => 0
  | None =>
      match producer s with PSend todo => 4 * length todo + 1 | PDone => 0 end
      + match main s with MWgroup i => 3 * (n - i) + 2 | MClose => 1 | MReturn => 0 end
      + 3 * length (buf (queue s))
      + sum_list_with worker_weight (workers s)
  end%nat.

(** The jobs held by the workers. *)
Definition held_jobs (ws : list wstate) : list Z :=
  flat_map (fun x => held (Some x)) ws.

(** What an undisturbed run of the program keeps true: the process runs,
    the done channel is the first one, open, and no [/stop] or [/start]
    was served; no worker has taken the [<-c.done] case; [main] has
    started as many workers as its loop index says; a worker has returned
    only if the queue is closed and empty; the capacity is [c]; and the
    jobs still to be sent, buffered, held and printed are together the
    jobs of the program. *)
Definition undisturbed (n c : nat) (jobs : list Z) (s : state) : Prop :=
  halted s = None /\
  (stops s = [] /\ dones s = [false] /\ done s = O) /\
  well_synchronised s /\
  (forall w j, workers s !! w <> Some (WRequest j true)) /\
  match main s with
  | MWgroup i => length (workers s) = i /\ (i <= n)%nat
  | _ => length (workers s) = n
  end /\
  (WExited ∈ workers s -> qclosed (queue s) = true /\ buf (queue s) = []) /\
  cap (queue s) = c /\
  pending (producer s) ++ buf (queue s) ++ held_jobs (workers s)
    ++ printed_requests (out s) ≡ₚ jobs.



End limiter.

(* ===================================================================== *)
(** ** Properties of the functional options                               *)
(* ===================================================================== *)

Section foptions_facts.
Import patterns.

Lemma apply_opts_app {A : Type} (xs ys : list (A -> option A)) (a : A) :
  apply_opts (xs ++ ys) a = apply_opts xs a ≫= apply_opts ys.
Proof.
  revert a. induction xs as [|x xs IH]; intros a; simpl; [done|].
  destruct (x a) as [a'|]; simpl; [apply IH | done].
Qed.

Lemma apply_opts_snoc {A : Type} (xs : list (A -> option A)) (o : A -> option A) (a : A) :
  apply_opts (xs ++ [o]) a = apply_opts xs a ≫= o.
Proof.
  rewrite apply_opts_app. destruct (apply_opts xs a) as [a'|]; simpl; [|done].
  by destruct (o a').
Qed.

Lemma client_opts_last (os : list client_opt) (c cl : ClientWrapper) :
  apply_opts (map client_denote os) c = Some cl ->
  Timeout (Cl cl) = last_timeout (Timeout (Cl c)) os /\
  Transport (Cl cl) = last_transport (Transport (Cl c)) os.
Proof.
  revert c. induction os as [|o os IH]; intros c; simpl.
  - intros [= <-]. done.
  - destruct o as [t|[w|]]; simpl; intros H; try discriminate;
      apply IH in H; simpl in H; exact H.
Qed.

Lemma transport_opts_last (os : list transport_opt) (t t' : TransportWrapper) (h : HttpTransport) :
  Tr t = Some h ->
  apply_opts (map transport_denote os) t = Some t' ->
  exists h', Tr t' = Some h' /\
    MaxIdleConns h' = last_max_idle (MaxIdleConns h) os /\
    IdleConnTimeout h' = last_idle_timeout (IdleConnTimeout h) os.
Proof.
  revert t h. induction os as [|o os IH]; intros t h Ht; simpl.
  - intros [= <-]. eauto.
  - destruct o; simpl; unfold MaxIdleCons, MaxIdleConsPerHost, MaxConsPerHost,
      IdleConTimeout, through_Tr; rewrite Ht; intros H;
      eapply IH in H; try reflexivity; exact H.
Qed.

(** The transport options of the package never panic on the wrapper the
    constructor builds: its pointer is not nil and they keep it so. *)
Lemma transport_opts_total (os : list transport_opt) (t : TransportWrapper) (h : HttpTransport) :
  Tr t = Some h -> is_Some (apply_opts (map transport_denote os) t).
Proof.
  revert t h. induction os as [|o os IH]; intros t h Ht; simpl; [eauto|].
  destruct o; simpl; unfold MaxIdleCons, MaxIdleConsPerHost, MaxConsPerHost,
    IdleConTimeout, through_Tr; rewrite Ht; eapply IH; reflexivity.
Qed.

(** C10.  Both constructors build a fixed default value (the client with
    [Timeout] 0 and [http.DefaultTransport]; the transport with
    [MaxIdleConns] 100 and [IdleConnTimeout] 90 s) and then apply the
    options from left to right: appending an option applies it to what the
    options before it produced, and for the options of the package the
    value of a field is the one of the rightmost option that sets it, the
    default when there is none.  So [Timeout(a), Timeout(b)] gives
    [Cl.Timeout = b] and no option gives [Cl.Timeout = 0]. *)
Theorem options_apply_left_to_right :
  (NewClientWrapper [] = Some default_client /\
   Timeout (Cl default_client) = 0 /\
   Transport (Cl default_client) = DefaultTransport) /\
  (NewTransportWrapper [] = Some default_transport /\
   Tr default_transport = Some default_http_transport /\
   MaxIdleConns default_http_transport = 100 /\
   IdleConnTimeout default_http_transport = 90000000000) /\
  (forall (opts : list ClientOption) (o : ClientOption),
     NewClientWrapper (opts ++ [o]) = NewClientWrapper opts ≫= o) /\
  (forall (opts : list TransportOption) (o : TransportOption),
     NewTransportWrapper (opts ++ [o]) = NewTransportWrapper opts ≫= o) /\
  (forall (os : list client_opt) (cl : ClientWrapper),
     NewClientWrapper (map client_denote os) = Some cl ->
     Timeout (Cl cl) = last_timeout 0 os /\
     Transport (Cl cl) = last_transport DefaultTransport os) /\
  (forall os : list transport_opt,
     exists t h, NewTransportWrapper (map transport_denote os) = Some t /\
       Tr t = Some h /\
       MaxIdleConns h = last_max_idle 100 os /\
       IdleConnTimeout h = last_idle_timeout 90000000000 os) /\
  (forall a b : Duration,
     NewClientWrapper [TimeoutOpt a; TimeoutOpt b]
     = Some {| Cl := set_Timeout b (Cl default_client) |}).
Proof.
  repeat split; try reflexivity.
  - intros opts o. apply apply_opts_snoc.
  - intros opts o. apply apply_opts_snoc.
  - eapply client_opts_last in H. apply H.
  - eapply client_opts_last in H. apply H.
  - intros os.
    destruct (transport_opts_total os default_transport default_http_transport eq_refl)
      as [t Ht].
    destruct (transport_opts_last os default_transport t default_http_transport eq_refl Ht)
      as (h & Hh & Hm & Hi).
    exists t, h. repeat split; assumption.
Qed.

Lemma options_apply_left_to_right_witness :
  NewClientWrapper (map client_denote [OTimeout 5; OTransport (Some default_transport); OTimeout 7])
    = Some {| Cl := {| Transport := TransportPtr (Some default_http_transport);
                       CheckRedirect := None; Jar := None; Timeout := 7 |} |} /\
  Timeout (Cl {| Cl := {| Transport := TransportPtr (Some default_http_transport);
                          CheckRedirect := None; Jar := None; Timeout := 7 |} |}) = 7.
Proof.
  split; [reflexivity|].
  destruct options_apply_left_to_right as (_ & _ & _ & _ & H & _).
  exact (proj1 (H [OTimeout 5; OTransport (Some default_transport); OTimeout 7] _ eq_refl)).
Defined.


(** *** Further properties of the options *)

Lemma transport_opts_overwrite (os : list transport_opt) (h : HttpTransport) :
  apply_opts (map transport_denote os) {| Tr := Some h |}
  = Some {| Tr := Some (overwrite h os) |}.
Proof.
  revert h. induction os as [|o os IH]; intros h.
  - by destruct h.
  - destruct o; simpl; unfold MaxIdleCons, MaxIdleConsPerHost, MaxConsPerHost,
      IdleConTimeout, through_Tr; simpl; rewrite IH; reflexivity.
Qed.

(** X1.  Whatever options of the package [NewTransportWrapper] is given, in
    whatever number and order, it does not panic and returns a wrapper with
    a transport in which [MaxIdleConns], [MaxIdleConnsPerHost],
    [MaxConnsPerHost] and [IdleConnTimeout] have the value of the rightmost
    option that writes them (else 100, 0, 0 and 90 s) and every other field
    has the value the constructor gave it: no option reaches the proxy, the
    dialer, HTTP/2 or the two other timeouts. *)
Theorem transport_options_build (os : list transport_opt) :
  NewTransportWrapper (map transport_denote os)
  = Some {| Tr := Some
        {| Proxy := Some ProxyFromEnvironment;
           DialContext := Some {| dTimeout := 30000000000;
                                  dKeepAlive := 30000000000;
                                  dDualStack := true |};
           ForceAttemptHTTP2 := true;
           MaxIdleConns := last_max_idle 100 os;
           MaxIdleConnsPerHost := last_idle_per_host 0 os;
           MaxConnsPerHost := last_conns_per_host 0 os;
           IdleConnTimeout := last_idle_timeout 90000000000 os;
           TLSHandshakeTimeout := 10000000000;
           ExpectContinueTimeout := 1000000000 |} |}.
Proof.
  unfold NewTransportWrapper, default_transport.
  rewrite transport_opts_overwrite. reflexivity.
Qed.

Lemma client_opts_build (os : list client_opt) (c : ClientWrapper) :
  apply_opts (map client_denote os) c
  = if has_nil_wrapper os then None
    else Some {| Cl := {| Transport := last_transport (Transport (Cl c)) os;
                          CheckRedirect := CheckRedirect (Cl c);
                          Jar := Jar (Cl c);
                          Timeout := last_timeout (Timeout (Cl c)) os |} |}.
Proof.
  revert c. induction os as [|o os IH]; intros c.
  - by destruct c as [[]].
  - destruct o as [t|[w|]]; simpl; [| |done]; rewrite IH; reflexivity.
Qed.

(** X2.  [NewClientWrapper], given options of the package, panics exactly
    when one of them is [Transport(nil)], wherever it stands in the list
    and whatever the others are.  Otherwise it returns a client whose
    [Timeout] and [Transport] are those of the rightmost option that sets
    them (else 0 and [http.DefaultTransport]) and whose [CheckRedirect] and
    [Jar] are nil: no option reaches these two. *)
Theorem client_options_build (os : list client_opt) :
  NewClientWrapper (map client_denote os)
  = if has_nil_wrapper os then None
    else Some {| Cl := {| Transport := last_transport DefaultTransport os;
                          CheckRedirect := None;
                          Jar := None;
                          Timeout := last_timeout 0 os |} |}.
Proof. unfold NewClientWrapper. by rewrite client_opts_build. Qed.

Lemma client_swap (a b : client_opt) (c : ClientWrapper) :
  same_client_field a b = false ->
  client_denote a c ≫= client_denote b = client_denote b c ≫= client_denote a.
Proof. destruct a as [?|[?|]], b as [?|[?|]]; try discriminate; intros _; reflexivity. Qed.

Lemma transport_swap (a b : transport_opt) (t : TransportWrapper) :
  same_transport_field a b = false ->
  transport_denote a t ≫= transport_denote b
  = transport_denote b t ≫= transport_denote a.
Proof.
  destruct t as [[h|]]; destruct a, b; try discriminate; intros _; reflexivity.
Qed.

Lemma apply_opts_swap {A : Type} (f g : A -> option A) (xs ys : list (A -> option A)) (a : A) :
  (forall x, f x ≫= g = g x ≫= f) ->
  apply_opts (xs ++ f :: g :: ys) a = apply_opts (xs ++ g :: f :: ys) a.
Proof.
  intros Hfg. rewrite !apply_opts_app.
  destruct (apply_opts xs a) as [x|]; simpl; [|done].
  specialize (Hfg x). destruct (f x) as [y|], (g x) as [z|]; simpl in *.
  - destruct (g y) as [u|], (f z) as [v|]; simpl in *; congruence.
  - destruct (g y); simpl in *; congruence.
  - destruct (f z); simpl in *; congruence.
  - done.
Qed.

(** X3.  Two neighbouring options that write different fields can be
    exchanged without changing what the constructor returns, a panic
    included; this holds for the client options and for the transport
    options, in any list of options of the package. *)
Theorem options_on_different_fields_commute :
  (forall (os1 os2 : list client_opt) (a b : client_opt),
     same_client_field a b = false ->
     NewClientWrapper (map client_denote (os1 ++ a :: b :: os2))
     = NewClientWrapper (map client_denote (os1 ++ b :: a :: os2))) /\
  (forall (os1 os2 : list transport_opt) (a b : transport_opt),
     same_transport_field a b = false ->
     NewTransportWrapper (map transport_denote (os1 ++ a :: b :: os2))
     = NewTransportWrapper (map transport_denote (os1 ++ b :: a :: os2))).
Proof.
  split; intros os1 os2 a b Hab.
  - unfold NewClientWrapper. rewrite !map_app. simpl.
    apply apply_opts_swap. intros x. by apply client_swap.
  - unfold NewTransportWrapper. rewrite !map_app. simpl.
    apply apply_opts_swap. intros x. by apply transport_swap.
Qed.

Lemma options_on_different_fields_commute_witness :
  NewClientWrapper (map client_denote [OTimeout 5; OTransport (Some default_transport)])
  = NewClientWrapper (map client_denote [OTransport (Some default_transport); OTimeout 5]) /\
  NewTransportWrapper (map transport_denote [OMaxIdleCons 7; OIdleConTimeout 3; OMaxConsPerHost 2])
  = NewTransportWrapper (map transport_denote [OMaxIdleCons 7; OMaxConsPerHost 2; OIdleConTimeout 3]).
Proof.
  destruct options_on_different_fields_commute as [Hc Ht]. split.
  - exact (Hc [] [] (OTimeout 5) (OTransport (Some default_transport)) eq_refl).
  - exact (Ht [OMaxIdleCons 7] [] (OIdleConTimeout 3) (OMaxConsPerHost 2) eq_refl).
Defined.

End foptions_facts.

(* ===================================================================== *)
(** ** Properties of the limiter                                          *)
(* ===================================================================== *)

Section limiter_facts.
Import limiter.

(** Case analysis on an enabled step: one goal for each way the step can
    succeed, with the facts read from the state as hypotheses. *)
Ltac step_inv H :=
  unfold step in H;
  repeat match type of H with
  | match ?x with _ => _ end = Some _ => destruct x eqn:?; try discriminate H
  | (if ?b then _ else _) = Some _ => destruct b eqn:?; try discriminate H
  end;
  injection H as <-.

Ltac bool_facts :=
  repeat match goal with
  | H : _ && _ = true |- _ => apply andb_prop in H; destruct H
  | H : negb _ = true |- _ => apply negb_true_iff in H
  | H : negb _ = false |- _ => apply negb_false_iff in H
  | H : Z.eqb _ _ = true |- _ => apply Z.eqb_eq in H
  | H : Z.leb _ _ = false |- _ => apply Z.leb_gt in H
  | H : Z.leb _ _ = true |- _ => apply Z.leb_le in H
  | H : Nat.ltb _ _ = true |- _ => apply Nat.ltb_lt in H
  | H : Nat.ltb _ _ = false |- _ => apply Nat.ltb_ge in H
  | H : Nat.eqb _ _ = true |- _ => apply Nat.eqb_eq in H
  | H : Nat.eqb _ _ = false |- _ => apply Nat.eqb_neq in H
  end.

Lemma step_halted (n : nat) (s : state) (l : label) (c : Z) :
  halted s = Some c -> step n s l = None.
Proof. intros H. unfold step. by rewrite H. Qed.

Lemma step_running (n : nat) (s s' : state) (l : label) :
  step n s l = Some s' -> halted s = None.
Proof. unfold step. by destruct (halted s). Qed.

Lemma run_app (n : nat) (s : state) (tr1 tr2 : list label) :
  run n s (tr1 ++ tr2) = run n s tr1 ≫= fun s1 => run n s1 tr2.
Proof.
  revert s. induction tr1 as [|l tr1 IH]; intros s; simpl; [done|].
  destruct (step n s l); simpl; [apply IH | done].
Qed.

Lemma run_snoc (n : nat) (s s' : state) (tr : list label) (l : label) :
  run n s (tr ++ [l]) = Some s' <->
  exists s1, run n s tr = Some s1 /\ step n s1 l = Some s'.
Proof.
  rewrite run_app. destruct (run n s tr) as [s1|]; simpl.
  - destruct (step n s1 l) eqn:E; split.
    + intros [= <-]. eauto.
    + intros (? & [= <-] & ?). congruence.
    + done.
    + intros (? & [= <-] & ?). congruence.
  - split; [done | intros (? & ? & _); done].
Qed.

(** Induction along an execution, for a property of the labels taken so
    far and the state reached. *)
Lemma run_invariant (n : nat) (P : list label -> state -> Prop) (s0 : state) :
  P [] s0 ->
  (forall tr s l s', run n s0 tr = Some s -> P tr s -> step n s l = Some s' ->
     P (tr ++ [l]) s') ->
  forall tr s', run n s0 tr = Some s' -> P tr s'.
Proof.
  intros H0 Hstep tr. induction tr as [|l tr IH] using rev_ind; intros s'.
  - intros [= <-]. exact H0.
  - intros (s1 & Hr & Hs)%run_snoc. eauto.
Qed.

Lemma countb_app (p : label -> bool) (a b : list label) :
  countb p (a ++ b) = (countb p a + countb p b)%nat.
Proof. unfold countb. by rewrite List.filter_app, length_app. Qed.

Lemma enqueued_app (a b : list label) : enqueued (a ++ b) = enqueued a ++ enqueued b.
Proof.
  induction a as [|l a IH]; simpl; [done|].
  destruct l; simpl; by rewrite ?IH.
Qed.

Lemma deliveries_app (a b : list label) :
  deliveries (a ++ b) = deliveries a ++ deliveries b.
Proof.
  induction a as [|l a IH]; simpl; [done|].
  destruct l; simpl; by rewrite ?IH.
Qed.

Lemma delivered_app (a b : list label) : delivered (a ++ b) = delivered a ++ delivered b.
Proof. unfold delivered. by rewrite deliveries_app, map_app. Qed.

Lemma live_app (a b : list wstate) : live (a ++ b) = (live a + live b)%nat.
Proof. unfold live. by rewrite List.filter_app, length_app. Qed.

Lemma live_insert (ws : list wstate) (w : nat) (x y : wstate) :
  ws !! w = Some y ->
  (live (<[w := x]> ws) + (if is_live y then 1 else 0)
   = live ws + (if is_live x then 1 else 0))%nat.
Proof.
  revert w. induction ws as [|a ws IH]; intros w; [done|].
  destruct w as [|w]; simpl.
  - intros [= ->]. unfold live. simpl. destruct (is_live x), (is_live y); simpl; lia.
  - intros H. specialize (IH _ H). unfold live in *. simpl.
    destruct (is_live a); simpl; lia.
Qed.

Lemma live_zero (ws : list wstate) :
  live ws = 0%nat <-> Forall (fun w => w = WExited) ws.
Proof.
  unfold live. induction ws as [|a ws IH]; simpl.
  - split; [constructor | done].
  - destruct a; simpl; (split; [try discriminate | inversion 1; subst; try discriminate]).
    + intros H. constructor; [done | by apply IH].
    + by apply IH.
Qed.

(** *** The wait group [limit] *)

Lemma limit_live_step (n : nat) (s s' : state) (l : label) :
  limit s = Z.of_nat (live (workers s)) ->
  step n s l = Some s' ->
  limit s' = Z.of_nat (live (workers s')).
Proof.
  intros Hinv H. step_inv H; simpl; try exact Hinv.
  all: unfold worker_return, spawn; simpl.
  all: repeat match goal with
       | |- context [if ?b then _ else _] => destruct b eqn:?; simpl
       end; try exact Hinv.
  all: rewrite ?live_app; try (change (live [WNew]) with 1%nat; lia).
  all: match goal with
       | Hw : workers _ !! ?w = Some ?y |- context [live (<[?w := ?x]> _)] =>
           pose proof (live_insert _ _ x _ Hw) as Hl; simpl in Hl
       end; bool_facts; lia.
Qed.

Lemma spawn_step (n : nat) (s s' : state) (l : label) :
  is_spawn l = true -> step n s l = Some s' ->
  limit s' = limit s + 1 /\ workers s' = workers s ++ [WNew].
Proof.
  intros Hl H. step_inv H; try discriminate Hl; simpl; done.
Qed.

Lemma other_step (n : nat) (s s' : state) (l : label) :
  is_spawn l = false -> step n s l = Some s' ->
  (limit s' = limit s /\ live (workers s') = live (workers s) /\
   length (workers s') = length (workers s)) \/
  (exists w x, workers s !! w = Some x /\ x <> WExited /\
     workers s' = <[w := WExited]> (workers s) /\ limit s' = limit s - 1).
Proof.
  intros Hl H. step_inv H; try discriminate Hl; simpl; try (left; done).
  all: unfold worker_return; simpl.
  all: repeat match goal with
       | |- context [if ?b then _ else _] => destruct b eqn:?; simpl
       end; try (left; done).
  all: try (right; eexists _, _; repeat split; [eassumption | done]).
  all: left; rewrite length_insert; split; [done | split; [|done]].
  all: match goal with
       | Hw : workers _ !! ?w = Some ?y |- context [live (<[?w := ?x]> _)] =>
           pose proof (live_insert _ _ x _ Hw) as Hl'; simpl in Hl'; lia
       end.
Qed.

Lemma exited_stays (n : nat) (s s' : state) (l : label) (w : nat) :
  workers s !! w = Some WExited -> step n s l = Some s' ->
  workers s' !! w = Some WExited.
Proof.
  intros Hw H. step_inv H; simpl; try exact Hw.
  all: unfold worker_return, spawn; simpl.
  all: repeat match goal with
       | |- context [if ?b then _ else _] => destruct b eqn:?; simpl
       end; try exact Hw.
  all: try (by apply lookup_app_l_Some).
  all: match goal with
       | |- <[?w' := _]> _ !! _ = _ =>
           destruct (decide (w' = w)) as [->|];
           [congruence | by rewrite list_lookup_insert_ne]
       end.
Qed.

Lemma countb_snoc (p : label -> bool) (tr : list label) (l : label) :
  countb p (tr ++ [l]) = (countb p tr + if p l then 1 else 0)%nat.
Proof. rewrite countb_app. unfold countb at 2. simpl. by destruct (p l). Qed.

Lemma wgroup_progress_step (n : nat) (tr : list label) (s s' : state) (l : label) :
  wgroup_progress n tr s -> step n s l = Some s' ->
  wgroup_progress n (tr ++ [l]) s'.
Proof.
  intros [Hm Hg] H. split.
  - rewrite countb_snoc.
    step_inv H; simpl; unfold worker_return, spawn; simpl;
      repeat match goal with
      | |- context [if ?b then _ else _] => destruct b eqn:?; simpl
      end; bool_facts; rewrite ?Nat.add_0_r; try exact Hm.
    all: match goal with E : main _ = _ |- _ => rewrite ?E end;
      simpl in Hm; simpl; lia.
  - intros g'. rewrite countb_snoc. specialize (Hg g').
    step_inv H; simpl; unfold worker_return, spawn; simpl;
      repeat match goal with
      | |- context [if ?b then _ else _] => destruct b eqn:?; simpl
      end; bool_facts; rewrite ?Nat.add_0_r; try exact Hg.
    + (* GroupSpawn, this group *)
      subst g. rewrite Heqo0 in Hg.
      rewrite list_lookup_insert_eq by (by eapply lookup_lt_Some). lia.
    + (* GroupSpawn, another group *)
      by rewrite list_lookup_insert_ne.
    + (* Start *)
      destruct (groups s !! g') as [i|] eqn:E.
      * by rewrite (lookup_app_l_Some _ _ _ _ E).
      * apply lookup_ge_None in E.
        destruct (decide (g' = length (groups s))) as [->|].
        -- rewrite list_lookup_middle by done. lia.
        -- rewrite lookup_ge_None_2; [done|]. rewrite length_app. simpl. lia.
Qed.

Lemma limit_live_run (n : nat) (s s' : state) (tr : list label) :
  limit s = Z.of_nat (live (workers s)) ->
  run n s tr = Some s' ->
  limit s' = Z.of_nat (live (workers s')).
Proof.
  intros H0. revert s'.
  apply (run_invariant n (fun _ s1 => limit s1 = Z.of_nat (live (workers s1)))); [done|].
  intros tr' s1 l s2 _ Hs1 Hstep. eapply limit_live_step; eassumption.
Qed.

Lemma wgroup_progress_run (n c : nat) (jobs : list Z) (tr : list label) (s' : state) :
  run n (init c jobs) tr = Some s' -> wgroup_progress n tr s'.
Proof.
  revert s'. apply (run_invariant n (wgroup_progress n)).
  - split; simpl; [split; [done|lia] | done].
  - intros tr' s1 l s2 _ Hs1 Hstep. eapply wgroup_progress_step; eassumption.
Qed.

Lemma live_pos (ws : list wstate) (w : nat) (x : wstate) :
  ws !! w = Some x -> is_live x = true -> (0 < live ws)%nat.
Proof.
  intros Hw Hx. pose proof (live_insert ws w WExited x Hw) as H.
  rewrite Hx in H. simpl in H. lia.
Qed.

(** A worker that leaves its loop, by the end of the [range] or by the
    [return] after its last request, returns: it becomes [WExited] and its
    deferred [limit.Done()] takes 1 from [limit], which cannot panic while
    [limit] counts the live workers. *)
Lemma return_step (n : nat) (s s' : state) (l : label) (w : nat) :
  limit s = Z.of_nat (live (workers s)) ->
  step n s l = Some s' ->
  l = WDrained w \/
  (exists j, l = WReq w j true /\ workers s !! w = Some (WRequest j true)) ->
  (exists x, workers s !! w = Some x /\ x <> WExited) /\
  workers s' = <[w := WExited]> (workers s) /\
  workers s' !! w = Some WExited /\
  limit s' = limit s - 1 /\
  halted s' = None.
Proof.
  intros Hlim H Hl. unfold step in H.
  destruct (halted s) eqn:Hh; [done|].
  assert (Hpos : forall x, workers s !! w = Some x -> is_live x = true ->
            (limit s <=? 0) = false).
  { intros x Hw Hx. pose proof (live_pos _ _ _ Hw Hx). apply Z.leb_gt. lia. }
  destruct Hl as [->|(j & -> & Hw)].
  - destruct (workers s !! w) as [[]|] eqn:Hw; try done.
    destruct (buf (queue s)); [|done]. destruct (qclosed (queue s)); [|done].
    injection H as <-. unfold worker_return. rewrite (Hpos _ eq_refl eq_refl). simpl.
    split; [by eexists|]. split; [done|].
    split; [apply list_lookup_insert_eq; by eapply lookup_lt_Some|]. done.
  - rewrite Hw, Z.eqb_refl in H. injection H as <-. unfold worker_return. simpl.
    rewrite (Hpos _ Hw eq_refl). simpl.
    split; [by eexists|]. split; [done|].
    split; [apply list_lookup_insert_eq; by eapply lookup_lt_Some|]. done.
Qed.

(** C9.  In every execution of the program: [wgroup] starts exactly 5
    workers (never more, and 5 once [main] has left it; a [wgroup] started
    by [/start] has started as many workers as its loop index, at most 5);
    a step of any of the three paths that start a worker ([wgroup],
    [/start]'s [wgroup], [/worker/add]) adds 1 to [limit] and adds one
    worker that has not begun to run; any other step either leaves [limit]
    and the number of live workers alone or is the return of one worker,
    which takes 1 from [limit]; a worker that leaves its loop (its
    [range] ends, or it returns after the request that followed a stop
    signal) does return at that step: it becomes [WExited], [limit] goes
    down by exactly 1 and the process goes on, and in a live process
    nothing keeps such a worker from taking that step; a worker that has
    returned never moves again, so it takes from [limit] once.  So [limit] always
    equals the number of live workers, and it is 0 exactly when every
    worker has returned. *)
Theorem limit_counts_live_workers (c : nat) (jobs : list Z) (tr : list label) (s : state) :
  run default_workers (init c jobs) tr = Some s ->
  limit s = Z.of_nat (live (workers s)) /\
  (limit s = 0 <-> Forall (fun w => w = WExited) (workers s)) /\
  ((countb is_main_spawn tr <= 5)%nat /\
   (main s = MClose \/ main s = MReturn -> countb is_main_spawn tr = 5%nat)) /\
  (forall g i, groups s !! g = Some i ->
     countb (is_group_spawn g) tr = i /\ (i <= 5)%nat) /\
  (forall l s', step default_workers s l = Some s' ->
     if is_spawn l
     then limit s' = limit s + 1 /\ workers s' = workers s ++ [WNew]
     else (limit s' = limit s /\ live (workers s') = live (workers s) /\
           length (workers s') = length (workers s)) \/
          (exists w x, workers s !! w = Some x /\ x <> WExited /\
             workers s' = <[w := WExited]> (workers s) /\ limit s' = limit s - 1)) /\
  (forall w l s', step default_workers s l = Some s' ->
     l = WDrained w \/
     (exists j, l = WReq w j true /\ workers s !! w = Some (WRequest j true)) ->
     (exists x, workers s !! w = Some x /\ x <> WExited) /\
     workers s' = <[w := WExited]> (workers s) /\
     workers s' !! w = Some WExited /\
     limit s' = limit s - 1 /\
     halted s' = None) /\
  (forall w l s', workers s !! w = Some WExited ->
     step default_workers s l = Some s' -> workers s' !! w = Some WExited) /\
  (forall w, halted s = None ->
     (workers s !! w = Some WRange ->
      buf (queue s) = [] -> qclosed (queue s) = true ->
      exists s', step default_workers s (WDrained w) = Some s') /\
     (forall j, workers s !! w = Some (WRequest j true) ->
      exists s', step default_workers s (WReq w j true) = Some s')).
Proof.
  intros Hrun.
  assert (Hlim : limit s = Z.of_nat (live (workers s)))
    by (eapply limit_live_run; [|exact Hrun]; reflexivity).
  destruct (wgroup_progress_run _ _ _ _ _ Hrun) as [Hm Hg].
  split; [exact Hlim|]. split; [|split; [|split; [|split; [|split; [|split]]]]].
  - rewrite Hlim, <- live_zero. lia.
  - change default_workers with 5%nat in Hm, Hg. destruct (main s) as [i| |].
    + split; [lia|]. by intros [|].
    + split; [lia | done].
    + split; [lia | done].
  - intros g i Hgi. specialize (Hg g). rewrite Hgi in Hg. exact Hg.
  - intros l s' Hstep. destruct (is_spawn l) eqn:E.
    + eapply spawn_step; eassumption.
    + eapply other_step; eassumption.
  - intros w l s' Hstep Hl. eapply return_step; eassumption.
  - intros w l s' Hw Hstep. eapply exited_stays; eassumption.
  - intros w Hh. split.
    + intros Hw Hb Hq. unfold step. rewrite Hh, Hw, Hb, Hq. by eexists.
    + intros j Hw. unfold step. rewrite Hh, Hw, Z.eqb_refl. by eexists.
Qed.

Lemma limit_counts_live_workers_witness :
  run default_workers (init 10 [0; 1; 2])
    [MainSpawn; WBegin 0; Enq 0; WDeq 0 0; StopCall; WSel 0 true; StopClose 0]
    = Some stopped_state /\
  limit stopped_state = 1 /\
  exists s', step default_workers stopped_state (WReq 0 0 true) = Some s' /\
             workers s' = [WExited] /\ limit s' = 0.
Proof.
  assert (Hrun : run default_workers (init 10 [0; 1; 2])
                   [MainSpawn; WBegin 0; Enq 0; WDeq 0 0; StopCall; WSel 0 true; StopClose 0]
                 = Some stopped_state) by (vm_compute; reflexivity).
  split; [exact Hrun|]. split; [reflexivity|].
  destruct (limit_counts_live_workers _ _ _ _ Hrun) as (_ & _ & _ & _ & _ & Hret & _).
  assert (Hstep : step default_workers stopped_state (WReq 0 0 true)
                  = Some (worker_return 0 (print (OutRequest 0) stopped_state)))
    by reflexivity.
  eexists. split; [exact Hstep|].
  destruct (Hret 0%nat _ _ Hstep (or_intror (ex_intro _ 0 (conj eq_refl eq_refl))))
    as (_ & Hw & _ & Hl & _).
  split; [exact Hw | exact Hl].
Defined.

(** *** The job queue *)

(** One step moves at most one job: into the buffer at its tail, or out of
    it at its head; the capacity never changes. *)
Lemma queue_step (n : nat) (s s' : state) (l : label) :
  step n s l = Some s' ->
  buf (queue s) ++ enqueued [l] = delivered [l] ++ buf (queue s') /\
  cap (queue s') = cap (queue s) /\
  ((length (buf (queue s)) <= cap (queue s))%nat ->
   (length (buf (queue s')) <= cap (queue s'))%nat).
Proof.
  intros H. step_inv H; simpl; unfold worker_return, spawn, delivered; simpl;
    repeat match goal with
    | |- context [if ?b then _ else _] => destruct b eqn:?; simpl
    end; bool_facts; subst; rewrite ?app_nil_r; try done.
  all: try match goal with E : buf _ = _ |- _ => rewrite ?E end.
  all: rewrite ?length_app; simpl; repeat split; lia.
Qed.

Lemma queue_run (n : nat) (s s' : state) (tr : list label) :
  run n s tr = Some s' ->
  buf (queue s) ++ enqueued tr = delivered tr ++ buf (queue s') /\
  cap (queue s') = cap (queue s) /\
  ((length (buf (queue s)) <= cap (queue s))%nat ->
   (length (buf (queue s')) <= cap (queue s'))%nat).
Proof.
  revert s'. apply (run_invariant n (fun tr s' =>
    buf (queue s) ++ enqueued tr = delivered tr ++ buf (queue s') /\
    cap (queue s') = cap (queue s) /\
    ((length (buf (queue s)) <= cap (queue s))%nat ->
     (length (buf (queue s')) <= cap (queue s'))%nat))).
  - simpl. by rewrite app_nil_r.
  - intros tr' s1 l s2 _ (Hc & Hcap & Hle) Hstep.
    destruct (queue_step _ _ _ _ Hstep) as (Hc' & Hcap' & Hle').
    rewrite enqueued_app, delivered_app. split; [|split].
    + rewrite app_assoc, Hc, <- !app_assoc. by rewrite Hc'.
    + congruence.
    + auto.
Qed.

Lemma drained_step (n : nat) (s s' : state) (l : label) :
  step n s l = Some s' ->
  (is_drained l = true \/ (qclosed (queue s) = true /\ buf (queue s) = [])) ->
  qclosed (queue s') = true /\ buf (queue s') = [].
Proof.
  intros H Hd. step_inv H; simpl in *; unfold worker_return, spawn; simpl;
    repeat match goal with
    | |- context [if ?b then _ else _] => destruct b eqn:?; simpl
    end; bool_facts;
    try (destruct Hd as [Hd|[Hc Hb]]; [discriminate Hd | try done; congruence]).
  all: split; congruence.
Qed.

Lemma drained_run (n : nat) (s s' : state) (tr : list label) :
  run n s tr = Some s' -> existsb is_drained tr = true ->
  qclosed (queue s') = true /\ buf (queue s') = [].
Proof.
  revert s'. apply (run_invariant n (fun tr s' =>
    existsb is_drained tr = true -> qclosed (queue s') = true /\ buf (queue s') = [])).
  - discriminate.
  - intros tr' s1 l s2 _ IH Hstep Hex.
    rewrite existsb_app in Hex. simpl in Hex. rewrite orb_false_r in Hex.
    apply orb_prop in Hex. eapply drained_step; [exact Hstep|].
    destruct Hex as [Hex|Hex]; [right; auto | left; exact Hex].
Qed.

(** C6.  In every execution that starts with an empty queue, the jobs
    enqueued so far are, in the same order, the jobs delivered so far (one
    receive each) followed by the jobs still buffered.  A receive reports
    [ok = false] only on a closed and empty queue, and from then on every
    enqueued job has been delivered.  Closing the queue keeps its buffer,
    and a buffered job is handed to a waiting worker whether the queue is
    closed or not. *)
Theorem no_lost_jobs (n : nat) (s s' : state) (tr : list label) :
  buf (queue s) = [] ->
  run n s tr = Some s' ->
  enqueued tr = delivered tr ++ buf (queue s') /\
  length (deliveries tr) = length (delivered tr) /\
  (forall w s'', step n s' (WDrained w) = Some s'' ->
     qclosed (queue s') = true /\ buf (queue s') = []) /\
  (existsb is_drained tr = true ->
     qclosed (queue s') = true /\ buf (queue s') = [] /\ delivered tr = enqueued tr) /\
  (forall s'', step n s' MainClose = Some s'' -> buf (queue s'') = buf (queue s')) /\
  (forall w j rest, halted s' = None -> workers s' !! w = Some WRange ->
     buf (queue s') = j :: rest ->
     step n s' (WDrained w) = None /\
     exists s'', step n s' (WDeq w j) = Some s'' /\
       buf (queue s'') = rest /\ workers s'' !! w = Some (WSelect j)).
Proof.
  intros Hempty Hrun.
  destruct (queue_run _ _ _ _ Hrun) as (Hc & _ & _).
  rewrite Hempty in Hc. simpl in Hc.
  split; [exact Hc|]. split; [unfold delivered; by rewrite length_map|].
  split; [|split; [|split]].
  - intros w s'' H. eapply (drained_step n s' s'' (WDrained w)) in H as Hd; [|by left].
    step_inv H. done.
  - intros Hex. destruct (drained_run _ _ _ _ Hrun Hex) as [Hcl Hb].
    rewrite Hb, app_nil_r in Hc. done.
  - intros s'' H. step_inv H; done.
  - intros w j rest Hh Hw Hb. unfold step. rewrite Hh, Hw, Hb, Z.eqb_refl. simpl.
    split; [done|]. eexists. split; [reflexivity|]. simpl.
    split; [done|]. apply list_lookup_insert_eq. by eapply lookup_lt_Some.
Qed.

Lemma no_lost_jobs_witness :
  exists s', run 1 (init 2 [1; 2; 3])
               [MainSpawn; WBegin 0; Enq 1; Enq 2; WDeq 0 1; Enq 3] = Some s' /\
             [1; 2; 3] = [1] ++ buf (queue s').
Proof.
  eexists. split; [vm_compute; reflexivity|].
  refine (proj1 (no_lost_jobs 1 (init 2 [1; 2; 3]) _
                   [MainSpawn; WBegin 0; Enq 1; Enq 2; WDeq 0 1; Enq 3] eq_refl _)).
  vm_compute. reflexivity.
Defined.

Lemma producer_step (n : nat) (s s' : state) (l : label) :
  step n s l = Some s' ->
  enqueued [l] ++ pending (producer s') = pending (producer s).
Proof.
  intros H. step_inv H; simpl; unfold worker_return, spawn; simpl;
    repeat match goal with
    | |- context [if ?b then _ else _] => destruct b eqn:?; simpl
    end; bool_facts; subst;
    try match goal with E : producer _ = _ |- _ => rewrite ?E end; done.
Qed.

Lemma producer_run (n : nat) (s s' : state) (tr : list label) :
  run n s tr = Some s' ->
  enqueued tr ++ pending (producer s') = pending (producer s).
Proof.
  revert s'. apply (run_invariant n (fun tr s' =>
    enqueued tr ++ pending (producer s') = pending (producer s))); [done|].
  intros tr' s1 l s2 _ IH Hstep.
  rewrite enqueued_app, <- app_assoc, (producer_step _ _ _ _ Hstep). exact IH.
Qed.

Lemma no_worker_step (n : nat) (s s' : state) (l : label) :
  step n s l = Some s' -> workers s' = [] ->
  workers s = [] /\ delivered [l] = [].
Proof.
  intros H. step_inv H; simpl; unfold worker_return, spawn; simpl;
    repeat match goal with
    | |- context [if ?b then _ else _] => destruct b eqn:?; simpl
    end; try done.
  all: intros Hnil; exfalso.
  all: try (by apply app_nil in Hnil as [_ ?]).
  all: match goal with
       | Hw : workers _ !! ?w = Some _ |- _ =>
           apply lookup_lt_Some in Hw;
           apply (f_equal length) in Hnil; rewrite length_insert in Hnil;
           simpl in Hnil; lia
       end.
Qed.

Lemma no_worker_run (n : nat) (s s' : state) (tr : list label) :
  run n s tr = Some s' -> workers s' = [] -> delivered tr = [].
Proof.
  intros Hrun Hnil.
  enough (workers s = [] /\ delivered tr = []) by tauto.
  revert Hnil. revert s' Hrun. apply (run_invariant n (fun tr s' =>
    workers s' = [] -> workers s = [] /\ delivered tr = [])).
  - done.
  - intros tr' s1 l s2 _ IH Hstep Hnil.
    destruct (no_worker_step _ _ _ _ Hstep Hnil) as [Hw Hd].
    destruct (IH Hw) as [Hw0 Hd0]. split; [done|].
    by rewrite delivered_app, Hd0, Hd.
Qed.

(** C8.  In every execution of the program with a queue of capacity [c]:
    the queue keeps its capacity and never buffers more than [c] jobs;
    every job of the producer is still to be sent, buffered, or delivered
    (none is dropped); as long as no worker exists at most [c] jobs have
    been accepted; on a full queue the producer's send is not enabled (it
    blocks); and once a worker has taken a job from the full queue the
    blocked send goes through. *)
Theorem queue_bounded (n c : nat) (jobs : list Z) (tr : list label) (s : state) :
  run n (init c jobs) tr = Some s ->
  cap (queue s) = c /\
  (length (buf (queue s)) <= c)%nat /\
  jobs = enqueued tr ++ pending (producer s) /\
  enqueued tr = delivered tr ++ buf (queue s) /\
  (workers s = [] -> (length (enqueued tr) <= c)%nat) /\
  (length (buf (queue s)) = c -> forall j, step n s (Enq j) = None) /\
  (forall w k j todo s1,
     length (buf (queue s)) = c ->
     producer s = PSend (j :: todo) -> qclosed (queue s) = false ->
     step n s (WDeq w k) = Some s1 ->
     exists s2, step n s1 (Enq j) = Some s2 /\
       buf (queue s2) = buf (queue s1) ++ [j] /\ producer s2 = PSend todo).
Proof.
  intros Hrun.
  destruct (queue_run _ _ _ _ Hrun) as (Hc & Hcap & Hle). simpl in *.
  specialize (Hle (Nat.le_0_l _)).
  pose proof (producer_run _ _ _ _ Hrun) as Hp. simpl in Hp.
  split; [done|]. split; [lia|]. split; [done|]. split; [done|].
  split; [|split].
  - intros Hnil. rewrite Hc, (no_worker_run _ _ _ _ Hrun Hnil). simpl. lia.
  - intros Hfull j. unfold step. destruct (halted s); [done|].
    destruct (producer s) as [[|i todo]|]; try done.
    replace (length (buf (queue s)) <? cap (queue s))%nat with false
      by (symmetry; apply Nat.ltb_ge; lia).
    by rewrite andb_false_r.
  - intros w k j todo s1 Hfull Hprod Hopen H.
    unfold step in H. destruct (halted s) eqn:Hh; [done|].
    destruct (workers s !! w) as [[]|]; try done.
    destruct (buf (queue s)) as [|ww rest] eqn:Hb; [done|].
    destruct (ww =? k); [|done]. injection H as <-.
    unfold step. simpl. rewrite Hh, Hprod, Z.eqb_refl, Hopen. simpl in *.
    replace (length rest <? cap (queue s))%nat with true
      by (symmetry; apply Nat.ltb_lt; lia).
    eexists. split; [reflexivity|]. done.
Qed.

Lemma queue_bounded_witness :
  exists s, run default_workers (init 10 [0; 1; 2; 3; 4; 5; 6; 7; 8; 9; 10; 11])
              [Enq 0; Enq 1; Enq 2; Enq 3; Enq 4; Enq 5; Enq 6; Enq 7; Enq 8; Enq 9]
            = Some s /\
    cap (queue s) = 10%nat /\ length (buf (queue s)) = 10%nat /\
    step default_workers s (Enq 10) = None.
Proof.
  eexists. split; [vm_compute; reflexivity|].
  destruct (queue_bounded default_workers 10 [0; 1; 2; 3; 4; 5; 6; 7; 8; 9; 10; 11]
              [Enq 0; Enq 1; Enq 2; Enq 3; Enq 4; Enq 5; Enq 6; Enq 7; Enq 8; Enq 9]
              _ ltac:(vm_compute; reflexivity)) as (Hcap & _ & _ & _ & _ & Hfull & _).
  split; [exact Hcap|]. split; [reflexivity|].
  apply Hfull. reflexivity.
Defined.

(** *** Undisturbed runs *)

Lemma quiet_moves_complete (n : nat) (s s' : state) (l : label) :
  step n s l = Some s' -> quiet l = true -> In l (quiet_moves s).
Proof.
  intros H Hq. unfold quiet_moves.
  assert (Hw : forall w x, workers s !! w = Some x -> In l (worker_moves s w) ->
            In l (producer_moves s ++ [MainSpawn; MainWait; MainClose]
                  ++ flat_map (worker_moves s) (seq 0 (length (workers s))))).
  { intros w x Hx Hin. apply in_or_app. right. apply in_or_app. right.
    apply in_flat_map. exists w. split; [|exact Hin].
    apply in_seq. apply lookup_lt_Some in Hx. lia. }
  step_inv H; try discriminate Hq; subst l;
    try (apply in_or_app; left; unfold producer_moves;
         match goal with E : producer _ = _ |- _ => rewrite E end;
         bool_facts; subst; simpl; tauto);
    try (apply in_or_app; right; simpl; tauto).
  all: eapply Hw; [eassumption|]; unfold worker_moves;
    match goal with E : workers _ !! _ = _ |- _ => rewrite E end;
    try match goal with E : buf _ = _ |- _ => rewrite E end;
    bool_facts; subst; simpl; try tauto.
  all: simpl in Hq; subst; tauto.
Qed.

Lemma quiet_moves_quiet (s : state) (l : label) :
  In l (quiet_moves s) -> quiet l = true.
Proof.
  unfold quiet_moves. rewrite !in_app_iff, in_flat_map.
  intros [H|[H|(w & _ & H)]].
  - unfold producer_moves in H. destruct (producer s) as [[|j todo]|]; simpl in H;
      intuition (subst; reflexivity).
  - simpl in H. intuition (subst; reflexivity).
  - unfold worker_moves in H.
    destruct (workers s !! w) as [[]|]; simpl in H; try tauto;
      try destruct (buf (queue s)); simpl in H; intuition (subst; reflexivity).
Qed.

Lemma successors_nil (n : nat) (s : state) : at_rest n s -> successors n s = [].
Proof.
  intros Hrest. unfold successors.
  assert (H : forall ls, (forall l, In l ls -> quiet l = true) -> omap (step n s) ls = []).
  { induction ls as [|l ls IH]; intros Hq; [done|]. simpl.
    rewrite (Hrest l) by (apply Hq; by left). apply IH. intros l' ?. apply Hq. by right. }
  apply H. apply quiet_moves_quiet.
Qed.

Lemma explore_sound (n : nat) (final : state -> bool) (fuel : nat) :
  forall (s : state) (tr : list label) (s' : state),
    explore n final fuel s = true ->
    forallb quiet tr = true ->
    run n s tr = Some s' ->
    (length tr < fuel)%nat /\ (at_rest n s' -> final s' = true).
Proof.
  induction fuel as [|fuel IH]; intros s tr s' Hex Hq Hrun; [discriminate Hex|].
  simpl in Hex. destruct tr as [|l tr]; simpl in *.
  - injection Hrun as <-. split; [lia|]. intros Hrest.
    by rewrite (successors_nil _ _ Hrest) in Hex.
  - apply andb_prop in Hq as [Hl Hq].
    destruct (step n s l) as [s1|] eqn:Hstep; [|discriminate Hrun].
    assert (Hin : In s1 (successors n s)).
    { apply list_elem_of_In. unfold successors. apply list_elem_of_omap.
      exists l. split; [|exact Hstep].
      apply list_elem_of_In. eapply quiet_moves_complete; eassumption. }
    assert (Hall : forallb (explore n final fuel) (successors n s) = true)
      by (destruct (successors n s); [destruct Hin | exact Hex]).
    rewrite forallb_forall in Hall.
    destruct (IH s1 tr s' (Hall _ Hin) Hq Hrun) as [Hlen Hfin].
    split; [lia | exact Hfin].
Qed.

Lemma at_rest_successors (n : nat) (s : state) : successors n s = [] -> at_rest n s.
Proof.
  intros Hnil l Hq. destruct (step n s l) as [s1|] eqn:Hstep; [|done].
  assert (Hin : s1 ∈ successors n s).
  { unfold successors. apply list_elem_of_omap. exists l. split; [|exact Hstep].
    apply list_elem_of_In. eapply quiet_moves_complete; eassumption. }
  rewrite Hnil in Hin. by apply not_elem_of_nil in Hin.
Qed.

Lemma scenario_explored : explore 1 scenario_final 19 scenario = true.
Proof. vm_compute. reflexivity. Qed.

(** What the worker of the scenario does while the process is kept alive.
    With a queue of capacity 2, a pool of one worker and the jobs 1, 2, 3
    to enqueue before the queue is closed, every undisturbed execution (no
    [/stop], [/start] or [/worker/add], no failing downstream call, and
    [main] not returning) has at most 18 steps, and when it can go no
    further the worker has executed the requests 1, 2, 3 in this order and
    has returned, the queue is closed and empty, and [limit] is 0.  Such
    an execution exists.  The program itself does not keep the process
    alive: see the end of [main] below. *)
Theorem scenario_jobs_in_order :
  (forall (tr : list label) (s' : state),
     forallb quiet tr = true ->
     run 1 scenario tr = Some s' ->
     (length tr <= 18)%nat /\
     (at_rest 1 s' ->
        out s' = [OutRequest 1; OutRequest 2; OutRequest 3] /\
        workers s' = [WExited] /\
        buf (queue s') = [] /\ qclosed (queue s') = true /\
        limit s' = 0)) /\
  (exists (tr : list label) (s' : state),
     forallb quiet tr = true /\ run 1 scenario tr = Some s' /\ at_rest 1 s').
Proof.
  split.
  - intros tr s' Hq Hrun.
    destruct (explore_sound 1 scenario_final 19 scenario tr s'
                scenario_explored Hq Hrun) as [Hlen Hfin].
    split; [lia|]. intros Hrest. specialize (Hfin Hrest).
    by apply bool_decide_eq_true in Hfin.
  - exists [MainSpawn; WBegin 0; Enq 1; Enq 2; WDeq 0 1; Enq 3; ProducerExit;
            MainWait; MainClose; WSel 0 false; WReq 0 1 true;
            WDeq 0 2; WSel 0 false; WReq 0 2 true;
            WDeq 0 3; WSel 0 false; WReq 0 3 true; WDrained 0].
    eexists. split; [reflexivity|]. split; [vm_compute; reflexivity|].
    apply at_rest_successors. vm_compute. reflexivity.
Qed.

Lemma scenario_jobs_in_order_witness :
  exists s', run 1 scenario [MainSpawn; WBegin 0; Enq 1] = Some s' /\
             (length [MainSpawn; WBegin 0; Enq 1] <= 18)%nat.
Proof.
  eexists. split; [vm_compute; reflexivity|].
  refine (proj1 (proj1 scenario_jobs_in_order [MainSpawn; WBegin 0; Enq 1] _ eq_refl _)).
  vm_compute. reflexivity.
Defined.

(** *** A failing downstream call *)

(** C3 as stated fails: worker 0 holds job 0 and job 1 is buffered; the
    call for job 0 fails; the process has then exited with status 1 and the
    worker cannot take job 1. *)
Lemma downstream_failure_ends_process :
  run default_workers (init 10 [0; 1; 2])
    [MainSpawn; WBegin 0; Enq 0; Enq 1; WDeq 0 0; WSel 0 false] = Some calling_state /\
  exists s' : state,
    step default_workers calling_state (WReq 0 0 false) = Some s' /\
    halted s' = Some 1 /\
    workers s' !! 0%nat = Some (WRequest 0 false) /\
    buf (queue s') = [1] /\
    step default_workers s' (WDeq 0 1) = None.
Proof.
  split; [vm_compute; reflexivity|].
  eexists. split; [vm_compute; reflexivity|]. done.
Qed.

(** C3, amended.  When the downstream call of a job fails, the worker
    prints the error and the process exits with status 1: the queue and
    the workers are left as they were and no goroutine takes another step.
    When the call succeeds the worker prints the request and, unless it had
    received the stop signal, goes back to wait for its next job. *)
Theorem downstream_failure_exits (n : nat) (s s' : state) (w : nat) (j : Z) (ok : bool) :
  step n s (WReq w j ok) = Some s' ->
  if ok
  then out s' = out s ++ [OutRequest j] /\
       (workers s !! w = Some (WRequest j false) ->
        halted s' = None /\ workers s' !! w = Some WRange)
  else out s' = out s ++ [OutError] /\
       halted s' = Some 1 /\
       queue s' = queue s /\ workers s' = workers s /\
       (forall l, step n s' l = None).
Proof.
  intros H. unfold step in H. destruct (halted s) eqn:Hh; [done|].
  destruct (workers s !! w) as [[| | |ww last|]|] eqn:Hw; try done.
  destruct (ww =? j) eqn:E; [|done]. apply Z.eqb_eq in E. subst ww.
  destruct ok.
  - destruct last; injection H as <-.
    + unfold worker_return.
      match goal with |- context [if ?b then _ else _] => destruct b end;
        simpl; (split; [done | discriminate]).
    + simpl. split; [done|]. intros _. split; [done|].
      apply list_lookup_insert_eq. by eapply lookup_lt_Some.
  - injection H as <-. simpl. split; [done|]. split; [done|]. split; [done|].
    split; [done|]. intros l. by apply (step_halted _ _ _ 1).
Qed.

Lemma downstream_failure_exits_witness :
  step default_workers calling_state (WReq 0 0 false)
    = Some (exit 1 (print OutError calling_state)) /\
  halted (exit 1 (print OutError calling_state)) = Some 1.
Proof.
  assert (H : step default_workers calling_state (WReq 0 0 false)
              = Some (exit 1 (print OutError calling_state))) by reflexivity.
  split; [exact H|].
  exact (proj1 (proj2 (downstream_failure_exits _ _ _ _ _ false H))).
Defined.

(** *** The done channel *)


Lemma find_sender_None (ch : nat) (hs : list hstate) :
  find_sender ch hs = None <-> HSend ch ∉ hs.
Proof.
  induction hs as [|x hs IH]; simpl.
  - split; [intros _; apply not_elem_of_nil | done].
  - rewrite not_elem_of_cons. destruct (is_sender ch x) eqn:E.
    + split; [done|]. intros [Hne _]. destruct x; try discriminate E.
      simpl in E. apply Nat.eqb_eq in E. by subst.
    + destruct (find_sender ch hs) as [i|].
      * split; [done|]. intros [_ Hn]. by apply IH in Hn.
      * split; [|done]. intros _. split; [|by apply IH].
        intros <-. simpl in E. by rewrite Nat.eqb_refl in E.
Qed.

Lemma closed_step (n : nat) (s s' : state) (l : label) (ch : nat) :
  chan_closed s ch = true -> step n s l = Some s' -> chan_closed s' ch = true.
Proof.
  unfold chan_closed. intros Hc H.
  destruct (dones s !! ch) as [b|] eqn:Hch; [|discriminate Hc]. simpl in Hc. subst b.
  step_inv H; simpl; unfold worker_return, spawn; simpl;
    repeat match goal with
    | |- context [if ?b then _ else _] => destruct b eqn:?; simpl
    end; rewrite ?Hch; try done.
  - destruct (decide (done s = ch)) as [->|Hne].
    + rewrite list_lookup_insert_eq; [done | by eapply lookup_lt_Some].
    + rewrite list_lookup_insert_ne by done. by rewrite Hch.
  - by rewrite (lookup_app_l_Some _ _ _ _ Hch).
Qed.

Lemma done_step (n : nat) (s s' : state) (l : label) :
  is_start l = false -> step n s l = Some s' -> done s' = done s.
Proof.
  intros Hl H. step_inv H; try discriminate Hl; simpl; unfold worker_return, spawn; simpl;
    repeat match goal with
    | |- context [if ?b then _ else _] => destruct b eqn:?; simpl
    end; done.
Qed.


Lemma observe_closed (s : state) : chan_closed s (done s) = true -> observe s = true.
Proof. intros H. unfold observe. by rewrite H. Qed.

(** C4 as stated fails: after a complete [/stop] a second call of [/stop]
    is neither a no-op nor an error handed back: the handler panics on its
    send to the closed channel. *)
Lemma second_stop_panics :
  run default_workers (init 10 [0; 1; 2])
    [MainSpawn; WBegin 0; Enq 0; WDeq 0 0; StopCall; WSel 0 true; StopClose 0]
    = Some stopped_state /\
  chan_closed stopped_state (done stopped_state) = true /\
  exists s' : state,
    step default_workers stopped_state StopCall = Some s' /\
    stops s' = [HReturned; HPanicked].
Proof.
  split; [vm_compute; reflexivity|]. split; [reflexivity|].
  eexists. split; reflexivity.
Qed.

(** C4, amended.  When the done channel is already closed, a call of
    [/stop] panics in its handler on the send to the closed channel, and a
    handler that was about to close it panics as well; neither changes the
    channel or anything but the handler's own state, so the signal is not
    fired a second time, and whatever happens next the channel stays
    closed: no observer sees it unfired again. *)
Theorem stop_when_stopped_panics (n : nat) (s : state) :
  halted s = None ->
  chan_closed s (done s) = true ->
  step n s StopCall = Some (with_stops (stops s ++ [HPanicked]) s) /\
  observe (with_stops (stops s ++ [HPanicked]) s) = true /\
  (forall h, stops s !! h = Some HClose ->
     step n s (StopClose h) = Some (with_stops (<[h := HPanicked]> (stops s)) s)) /\
  (forall tr s', run n s tr = Some s' -> chan_closed s' (done s) = true).
Proof.
  intros Hh Hc. split; [|split; [|split]].
  - unfold step. by rewrite Hh, Hc.
  - by apply observe_closed.
  - intros h Hs. unfold step. by rewrite Hh, Hs, Hc.
  - intros tr. revert Hc. generalize (done s) as ch. clear Hh. revert s.
    induction tr as [|l tr IH]; intros s ch Hc s' Hrun; simpl in *.
    + by injection Hrun as <-.
    + destruct (step n s l) as [s1|] eqn:Hstep; [|done].
      eapply IH; [|exact Hrun]. eapply closed_step; eassumption.
Qed.

Lemma stop_when_stopped_panics_witness :
  halted stopped_state = None /\
  chan_closed stopped_state (done stopped_state) = true /\
  step default_workers stopped_state StopCall
    = Some (with_stops (stops stopped_state ++ [HPanicked]) stopped_state).
Proof.
  split; [reflexivity|]. split; [reflexivity|].
  exact (proj1 (stop_when_stopped_panics default_workers stopped_state eq_refl eq_refl)).
Defined.










(** *** Jobs run after a stop *)

Lemma lookup_snoc_new (ws : list wstate) (w : nat) :
  ws !! w = None ->
  (ws ++ [WNew]) !! w = Some WNew \/ (ws ++ [WNew]) !! w = None.
Proof.
  intros E. apply lookup_ge_None in E.
  destruct (decide (w = length ws)) as [->|].
  - left. by rewrite list_lookup_middle.
  - right. apply lookup_ge_None. rewrite length_app. simpl. lia.
Qed.

Ltac lookup_worker w :=
  match goal with
  | Hw : workers ?s !! ?w0 = Some _ |- context [<[?w0 := _]> (workers ?s) !! w] =>
      destruct (decide (w0 = w)) as [->|];
      [ rewrite list_lookup_insert_eq by (by eapply lookup_lt_Some); rewrite ?Hw
      | rewrite list_lookup_insert_ne by done;
        replace (w0 =? w)%nat with false by (symmetry; by apply Nat.eqb_neq) ]
  | |- context [(workers ?s ++ [WNew]) !! w] =>
      let E := fresh in
      destruct (workers s !! w) eqn:E;
      [ rewrite (lookup_app_l_Some _ _ _ _ E)
      | destruct (lookup_snoc_new _ _ E) as [-> | ->] ]
  end.

Lemma budget_step (n : nat) (s s' : state) (l : label) (w : nat) :
  chan_closed s (done s) = true ->
  step n s l = Some s' ->
  (countb (is_deq w) [l] + takes_budget s' w <= takes_budget s w)%nat /\
  (countb (is_req w) [l] + requests_budget s' w <= requests_budget s w)%nat.
Proof.
  intros Hc H. unfold takes_budget, requests_budget, countb.
  step_inv H; simpl; unfold worker_return, spawn; simpl;
    repeat match goal with
    | |- context [if ?b then _ else _] => destruct b eqn:?; simpl
    end; bool_facts; subst; try discriminate Hc; try lia.
  all: try (lookup_worker w; simpl; rewrite ?Nat.eqb_refl; simpl; lia).
  all: try (match goal with Hw : workers _ !! _ = Some _ |- _ => rewrite ?Hw end;
            simpl; lia).
  all: try match goal with E : halted (exit _ _) = None |- _ => discriminate E end.
  all: rewrite list_lookup_insert_eq by (by eapply lookup_lt_Some).
  all: match goal with Hw : workers _ !! _ = Some _ |- _ => rewrite ?Hw end; simpl; lia.
Qed.

Lemma budget_run (n : nat) (s s' : state) (tr : list label) (w : nat) :
  chan_closed s (done s) = true ->
  forallb (fun l => negb (is_start l)) tr = true ->
  run n s tr = Some s' ->
  (countb (is_deq w) tr + takes_budget s' w <= takes_budget s w)%nat /\
  (countb (is_req w) tr + requests_budget s' w <= requests_budget s w)%nat.
Proof.
  revert s. induction tr as [|l tr IH]; intros s Hc Hq Hrun; simpl in Hrun, Hq.
  - injection Hrun as <-. unfold countb. simpl. lia.
  - apply andb_prop in Hq as [Hl Hq]. apply negb_true_iff in Hl.
    destruct (step n s l) as [s1|] eqn:Hstep; [|done].
    pose proof (closed_step _ _ _ _ _ Hc Hstep) as Hc1.
    rewrite <- (done_step _ _ _ _ Hl Hstep) in Hc1.
    destruct (budget_step _ _ _ _ w Hc Hstep) as [Hd Hr].
    destruct (IH s1 Hc1 Hq Hrun) as [Hd' Hr'].
    change (l :: tr) with ([l] ++ tr). rewrite !countb_app. lia.
Qed.

(** C1 as stated fails: in [race_trace], an execution of the program,
    worker 1 executes three jobs after [/stop] was called (and after the
    handoff was received by worker 0) before it returns, two of them after
    the handler has closed the channel. *)
Lemma stop_race_runs_three_jobs :
  workers <$> run default_workers main_init race_trace = Some [WExited; WExited] /\
  jobs_after_stop 1 race_trace = 3%nat /\
  jobs_after_close 1 race_trace = 2%nat.
Proof. split; [vm_compute; reflexivity | split; reflexivity]. Qed.

(** C1, amended.  Once [/stop] has closed the done channel, and as long as
    [/start] does not replace it, every worker, whether it runs already or
    is added by [/worker/add] afterwards, takes at most one more job from
    the queue before it returns; so it makes at most one request besides
    the one for the job it may hold at that moment. *)
Theorem one_more_job_after_close (n : nat) (s s' : state) (tr : list label) (w : nat) :
  chan_closed s (done s) = true ->
  forallb (fun l => negb (is_start l)) tr = true ->
  run n s tr = Some s' ->
  (countb (is_deq w) tr <= 1)%nat /\
  (countb (is_req w) tr <= 1 + holding (workers s !! w))%nat /\
  (countb (is_req w) tr <= takes_left (workers s !! w) + holding (workers s !! w))%nat.
Proof.
  intros Hc Hq Hrun.
  destruct (budget_run _ _ _ _ w Hc Hq Hrun) as [Hd Hr].
  assert (Ht : (takes_left (workers s !! w) <= 1)%nat)
    by (destruct (workers s !! w) as [[| | |? []|]|]; simpl; lia).
  unfold takes_budget, requests_budget in Hd, Hr.
  destruct (halted s); lia.
Qed.

Lemma one_more_job_after_close_witness :
  chan_closed stopped_state (done stopped_state) = true /\
  run default_workers stopped_state late_worker_trace <> None /\
  (countb (is_deq 1) late_worker_trace <= 1)%nat /\
  (countb (is_req 1) late_worker_trace <= 1)%nat.
Proof.
  split; [reflexivity|]. split; [vm_compute; discriminate|].
  destruct (run default_workers stopped_state late_worker_trace) as [s'|] eqn:E.
  - destruct (one_more_job_after_close default_workers stopped_state s'
                late_worker_trace 1%nat eq_refl eq_refl E) as (H1 & H2 & _).
    split; [exact H1 | exact H2].
  - vm_compute in E. discriminate E.
Defined.


(** *** The end of [main] *)

(** C7 fails on the code.  [main] returns right after [close(work)]: it
    waits for the producer ([wg.Wait()]) but never for the workers, though
    every worker is counted in [limit], and the return of [main] ends the
    process.  In the scenario (capacity 2, one worker, jobs 1, 2, 3) this
    execution of the program enqueues the three jobs, closes the queue and
    ends with status 0 while the worker still holds job 1 and jobs 2 and 3
    are buffered: nothing was executed, the worker has not returned,
    [limit] is 1, and no step follows. *)
Theorem scenario_cut_short_by_main :
  exists s' : state,
    run 1 scenario
      [MainSpawn; WBegin 0; Enq 1; Enq 2; WDeq 0 1; Enq 3; ProducerExit;
       MainWait; MainClose; MainReturn] = Some s' /\
    halted s' = Some 0 /\
    out s' = [] /\
    workers s' = [WSelect 1] /\
    buf (queue s') = [2; 3] /\ qclosed (queue s') = true /\
    limit s' = 1 /\
    forall l, step 1 s' l = None.
Proof.
  eexists. split; [vm_compute; reflexivity|].
  repeat (split; [reflexivity|]). intros l. by apply (step_halted _ _ _ 0).
Qed.


(** *** How the process can end *)

Lemma well_synchronised_step (n : nat) (s s' : state) (l : label) :
  well_synchronised s -> step n s l = Some s' -> well_synchronised s'.
Proof.
  intros (Hlim & Hwg & Hmain & Hh) H.
  split; [eapply limit_live_step; eassumption|].
  assert (Hpos : forall w x, workers s !! w = Some x -> is_live x = true -> 0 < limit s).
  { intros w x Hw Hx. pose proof (live_pos _ _ _ Hw Hx). lia. }
  clear Hlim.
  step_inv H; simpl in *; unfold worker_return, spawn; simpl;
    repeat match goal with
    | |- context [if ?b then _ else _] => destruct b eqn:?; simpl
    end; bool_facts; simpl in *.
  all: try match goal with
       | Hw : workers _ !! _ = Some _, Hle : limit _ <= 0 |- _ =>
           specialize (Hpos _ _ Hw eq_refl); lia
       end.
  all: clear Hpos.
  all: destruct (main s) eqn:?; destruct (producer s) eqn:?; simpl in *;
    repeat split; try tauto; try congruence; try lia;
    try (destruct Hmain; congruence).
Qed.


Lemma ends_with_step (n : nat) (s s' : state) (l : label) (code : Z) :
  step n s l = Some s' -> halted s' = Some code -> code <> 2 ->
  ends_with l code /\ (code = 0 -> main s' = MReturn).
Proof.
  intros H Hc Hne. unfold ends_with.
  step_inv H; simpl in Hc; unfold worker_return, spawn in Hc; simpl in Hc;
    repeat match type of Hc with
    | context [if ?b then _ else _] => destruct b eqn:?; simpl in Hc
    end; try congruence; injection Hc as <-; try done.
  - split; [by left | done].
  - split; [|done]. right. split; [done|]. right. eauto.
  - split; [|done]. right. split; [done|]. by left.
Qed.

(** X4.  No execution of the program is ended by a panic (a panic of a
    [/stop] handler is recovered by the server and ends only the handler):
    the queue is never closed twice nor sent to after its close, and
    neither wait group counter goes below zero.  The process ends only by
    [main] returning
    (status 0), and then every job has been enqueued and the queue is
    closed, or with status 1 by a failed downstream call or by the HTTP
    server failing; the step that ends it is the last one. *)
Theorem process_never_panics (n c : nat) (jobs : list Z) (tr : list label) (s : state) :
  run n (init c jobs) tr = Some s ->
  halted s <> Some 2 /\
  (forall code, halted s = Some code ->
     exists tr' l, tr = tr' ++ [l] /\ ends_with l code) /\
  (halted s = Some 0 -> enqueued tr = jobs /\ qclosed (queue s) = true).
Proof.
  intros Hrun.
  assert (H : well_synchronised s /\
              (forall code, halted s = Some code ->
                 (exists tr' l, tr = tr' ++ [l] /\ ends_with l code) /\
                 (code = 0 -> main s = MReturn))).
  { revert s Hrun. apply (run_invariant n (fun tr s =>
      well_synchronised s /\
      (forall code, halted s = Some code ->
         (exists tr' l, tr = tr' ++ [l] /\ ends_with l code) /\
         (code = 0 -> main s = MReturn)))).
    - split; [|discriminate]. repeat split; simpl; done.
    - intros tr' s1 l s2 _ [Hws _] Hstep.
      pose proof (well_synchronised_step _ _ _ _ Hws Hstep) as Hws2.
      split; [exact Hws2|]. intros code Hc.
      assert (code <> 2) by (destruct Hws2 as (_ & _ & _ & Hn); congruence).
      destruct (ends_with_step _ _ _ _ _ Hstep Hc) as [He Hm]; [done|].
      split; [eauto | done]. }
  destruct H as [(Hlim & Hwg & Hmain & Hno) Hend].
  split; [exact Hno|]. split.
  - intros code Hc. by destruct (Hend code Hc).
  - intros H0. destruct (Hend 0 H0) as [_ Hm]. rewrite Hm in Hmain by done.
    destruct Hmain as [Hcl Hp]. split; [|done].
    pose proof (producer_run _ _ _ _ Hrun) as Hpr. rewrite Hp in Hpr. simpl in Hpr.
    by rewrite app_nil_r in Hpr.
Qed.

Lemma process_never_panics_witness :
  exists s, run 1 scenario
              [MainSpawn; Enq 1; Enq 2; WBegin 0; WDeq 0 1; Enq 3; ProducerExit;
               MainWait; MainClose; MainReturn] = Some s /\
            halted s <> Some 2 /\ halted s = Some 0.
Proof.
  eexists. split; [vm_compute; reflexivity|]. split; [|reflexivity].
  refine (proj1 (process_never_panics 1 2 [1; 2; 3]
            [MainSpawn; Enq 1; Enq 2; WBegin 0; WDeq 0 1; Enq 3; ProducerExit;
             MainWait; MainClose; MainReturn] _ _)).
  vm_compute. reflexivity.
Defined.


(** *** What becomes of a job a worker has taken *)

Lemma delivered_to_app (w : nat) (a b : list label) :
  delivered_to w (a ++ b) = delivered_to w a ++ delivered_to w b.
Proof.
  induction a as [|l a IH]; simpl; [done|].
  destruct l; simpl; rewrite ?IH; try done. by destruct (_ =? _)%nat.
Qed.

Lemma executed_by_app (w : nat) (a b : list label) :
  executed_by w (a ++ b) = executed_by w a ++ executed_by w b.
Proof.
  induction a as [|l a IH]; simpl; [done|].
  destruct l as [| | | | | | | | | | | |? ? []| | | | |]; simpl; rewrite ?IH; try done.
  by destruct (_ =? _)%nat.
Qed.

Lemma held_step (n : nat) (s s' : state) (l : label) (w : nat) :
  limit s = Z.of_nat (live (workers s)) ->
  step n s l = Some s' ->
  held (workers s !! w) ++ delivered_to w [l]
  = executed_by w [l] ++ held (workers s' !! w).
Proof.
  intros Hlim H.
  assert (Hpos : forall w x, workers s !! w = Some x -> is_live x = true -> 0 < limit s).
  { intros w0 x Hw Hx. pose proof (live_pos _ _ _ Hw Hx). lia. }
  step_inv H; simpl; unfold worker_return, spawn; simpl;
    repeat match goal with
    | |- context [if ?b then _ else _] => destruct b eqn:?; simpl
    end; bool_facts; subst; rewrite ?app_nil_r; try done.
  all: try match goal with
       | Hw : workers _ !! _ = Some _, Hle : limit _ <= 0 |- _ =>
           specialize (Hpos _ _ Hw eq_refl); lia
       end.
  all: try (lookup_worker w; simpl; rewrite ?app_nil_r; done).
  all: try (match goal with Hw : workers _ !! _ = Some _ |- _ => rewrite ?Hw end;
            simpl; done).
  all: rewrite list_lookup_insert_eq by (by eapply lookup_lt_Some).
  all: match goal with Hw : workers _ !! _ = Some _ |- _ => rewrite ?Hw end; simpl; done.
Qed.

(** X5.  In every execution of the program and for every worker: the jobs
    the worker took from the queue are, in the same order, the jobs it
    executed successfully followed by the one job it holds, if it holds
    one.  So no worker executes a job twice or skips one it took, also
    when it is stopped: a worker that has returned has executed every job
    it took. *)
Theorem jobs_executed_once (n c : nat) (jobs : list Z) (tr : list label) (s : state) (w : nat) :
  run n (init c jobs) tr = Some s ->
  delivered_to w tr = executed_by w tr ++ held (workers s !! w) /\
  (length (held (workers s !! w)) <= 1)%nat /\
  (workers s !! w = Some WExited -> executed_by w tr = delivered_to w tr).
Proof.
  intros Hrun.
  assert (H : delivered_to w tr = executed_by w tr ++ held (workers s !! w)).
  { revert s Hrun. apply (run_invariant n (fun tr s =>
      delivered_to w tr = executed_by w tr ++ held (workers s !! w))); [done|].
    intros tr' s1 l s2 Hr1 IH Hstep.
    assert (Hlim : limit s1 = Z.of_nat (live (workers s1)))
      by (eapply limit_live_run; [|exact Hr1]; reflexivity).
    rewrite delivered_to_app, executed_by_app, IH, <- !app_assoc.
    by rewrite (held_step _ _ _ _ w Hlim Hstep). }
  split; [exact H|]. split.
  - destruct (workers s !! w) as [[]|]; simpl; lia.
  - intros Hw. rewrite Hw in H. simpl in H. by rewrite app_nil_r in H.
Qed.

Lemma jobs_executed_once_witness :
  exists s, run default_workers (init 10 [0; 1; 2; 3; 4]) race_trace = Some s /\
            delivered_to 1 race_trace = [1; 2; 3] /\
            executed_by 1 race_trace = [1; 2; 3].
Proof.
  eexists. split; [vm_compute; reflexivity|]. split; [reflexivity|].
  symmetry.
  refine (proj2 (proj2 (jobs_executed_once default_workers 10 [0; 1; 2; 3; 4]
                          race_trace _ 1%nat _)) _);
    [vm_compute; reflexivity | reflexivity].
Defined.


(** *** The done channel across restarts *)



(** *** How large the pool can get *)

Lemma sum_list_insert_S (l : list nat) (g i : nat) :
  l !! g = Some i -> sum_list (<[g := S i]> l) = S (sum_list l).
Proof.
  revert g. induction l as [|x l IH]; intros g; [done|].
  destruct g as [|g]; simpl.
  - by intros [= ->].
  - intros H. rewrite (IH _ H). lia.
Qed.

Lemma sum_list_bound (n : nat) (l : list nat) :
  (forall g i, l !! g = Some i -> (i <= n)%nat) ->
  (sum_list l <= n * length l)%nat.
Proof.
  induction l as [|x l IH]; intros H; simpl; [lia|].
  pose proof (H 0%nat x eq_refl). 
  assert (sum_list l <= n * length l)%nat by (apply IH; intros g i Hg; apply (H (S g)); done).
  lia.
Qed.

Lemma pool_step (n : nat) (s s' : state) (l : label) :
  step n s l = Some s' ->
  length (workers s') =
    (length (workers s) + if is_spawn l then 1 else 0)%nat /\
  (sum_list (groups s') + (if is_main_spawn l then 1 else 0) + (if is_add l then 1 else 0)
   = sum_list (groups s) + (if is_spawn l then 1 else 0))%nat /\
  length (groups s') = (length (groups s) + if is_start l then 1 else 0)%nat.
Proof.
  intros H. step_inv H; simpl; unfold worker_return, spawn; simpl;
    repeat match goal with
    | |- context [if ?b then _ else _] => destruct b eqn:?; simpl
    end; rewrite ?length_insert, ?length_app, ?sum_list_with_app; simpl;
    try (repeat split; lia).
  erewrite sum_list_insert_S by eassumption. repeat split; lia.
Qed.

(** X8.  The pool is not held to five workers.  In every execution of the
    program the number of workers ever started is the number started by
    [main]'s [wgroup] (at most 5) plus the number started by the [wgroup]s
    of [/start] (at most 5 for each call) plus one for each call of
    [/worker/add]; [/stop] takes nothing off.  So the number of live
    workers, which is [limit], and with it the number of downstream calls
    in flight, is bounded by 5 times one more than the number of [/start]
    calls, plus the number of [/worker/add] calls. *)
Theorem pool_size_bound (c : nat) (jobs : list Z) (tr : list label) (s : state) :
  run default_workers (init c jobs) tr = Some s ->
  length (workers s) = countb is_spawn tr /\
  (countb is_spawn tr <= 5 * (1 + countb is_start tr) + countb is_add tr)%nat /\
  0 <= limit s <= Z.of_nat (5 * (1 + countb is_start tr) + countb is_add tr).
Proof.
  intros Hrun.
  assert (H : length (workers s) = countb is_spawn tr /\
              (countb is_spawn tr
               = countb is_main_spawn tr + sum_list (groups s) + countb is_add tr)%nat /\
              length (groups s) = countb is_start tr).
  { revert s Hrun. apply (run_invariant default_workers (fun tr s =>
      length (workers s) = countb is_spawn tr /\
      (countb is_spawn tr
       = countb is_main_spawn tr + sum_list (groups s) + countb is_add tr)%nat /\
      length (groups s) = countb is_start tr)); [done|].
    intros tr' s1 l s2 _ (Hw & Hs & Hg) Hstep.
    destruct (pool_step _ _ _ _ Hstep) as (Hw' & Hs' & Hg').
    rewrite !countb_snoc. repeat split; lia. }
  destruct H as (Hw & Hs & Hg).
  destruct (wgroup_progress_run _ _ _ _ _ Hrun) as [Hm Hgr].
  assert (Hmain : (countb is_main_spawn tr <= 5)%nat).
  { change default_workers with 5%nat in Hm. destruct (main s); lia. }
  assert (Hsum : (sum_list (groups s) <= 5 * length (groups s))%nat).
  { apply sum_list_bound. intros g i Hgi. specialize (Hgr g). rewrite Hgi in Hgr.
    change default_workers with 5%nat in Hgr. lia. }
  assert (Hlim : limit s = Z.of_nat (live (workers s)))
    by (eapply limit_live_run; [|exact Hrun]; reflexivity).
  assert (Hlive : (live (workers s) <= length (workers s))%nat)
    by (unfold live; apply List.filter_length_le).
  split; [exact Hw|]. split; [lia|]. lia.
Qed.

Lemma pool_size_bound_witness :
  exists s, run default_workers (init 10 [0; 1; 2])
              [MainSpawn; MainSpawn; MainSpawn; MainSpawn; MainSpawn; Start;
               GroupSpawn 0; GroupSpawn 0; GroupSpawn 0; GroupSpawn 0; GroupSpawn 0;
               AddWorker] = Some s /\
            length (workers s) = 11%nat /\ limit s = 11.
Proof.
  eexists. split; [vm_compute; reflexivity|]. split; [|reflexivity].
  refine (proj1 (pool_size_bound 10 [0; 1; 2]
            [MainSpawn; MainSpawn; MainSpawn; MainSpawn; MainSpawn; Start;
             GroupSpawn 0; GroupSpawn 0; GroupSpawn 0; GroupSpawn 0; GroupSpawn 0;
             AddWorker] _ _)).
  vm_compute. reflexivity.
Defined.


(** *** Completed stops *)








(** *** The output *)

Lemma printed_requests_app (a b : list output) :
  printed_requests (a ++ b) = printed_requests a ++ printed_requests b.
Proof.
  induction a as [|o a IH]; simpl; [done|]. destruct o; simpl; by rewrite ?IH.
Qed.

Lemma executed_app (a b : list label) : executed (a ++ b) = executed a ++ executed b.
Proof.
  induction a as [|l a IH]; simpl; [done|].
  destruct l as [| | | | | | | | | | | |? ? []| | | | |]; simpl; by rewrite ?IH.
Qed.

Lemma output_step (n : nat) (s s' : state) (l : label) :
  step n s l = Some s' ->
  printed_requests (out s') = printed_requests (out s) ++ executed [l] /\
  (length (List.filter is_send_on_done (out s'))
   = length (List.filter is_send_on_done (out s)) + length (List.filter id (observations [l])))%nat /\
  (OutError ∈ out s' -> OutError ∈ out s \/ halted s' = Some 1).
Proof.
  intros H. step_inv H; simpl; unfold worker_return, spawn; simpl;
    repeat match goal with
    | |- context [if ?b then _ else _] => destruct b eqn:?; simpl
    end; bool_facts; subst;
    rewrite ?printed_requests_app, ?List.filter_app, ?length_app, ?app_nil_r; simpl;
    try (split; [done | split; [lia | by left]]).
  all: split; [done | split; [lia|]].
  all: rewrite ?elem_of_app, ?list_elem_of_singleton; intros [?|?]; auto; done.
Qed.

(** *** Undisturbed runs for every queue, pool and list of jobs *)

Lemma sum_list_with_insert {A : Type} (f : A -> nat) (l : list A) (i : nat) (x y : A) :
  l !! i = Some y ->
  (sum_list_with f (<[i := x]> l) + f y = sum_list_with f l + f x)%nat.
Proof.
  revert i. induction l as [|a l IH]; intros i; [done|].
  destruct i as [|i]; simpl.
  - intros [= ->]. lia.
  - intros H. specialize (IH _ H). lia.
Qed.

Lemma sum_list_with_lookup {A : Type} (f : A -> nat) (l : list A) (i : nat) (y : A) :
  l !! i = Some y -> (f y <= sum_list_with f l)%nat.
Proof.
  intros H. pose proof (sum_list_with_insert f l i y y H).
  revert i H H0. induction l as [|a l IH]; intros i H _; [done|].
  destruct i as [|i]; simpl in *.
  - injection H as ->. lia.
  - specialize (IH i H (sum_list_with_insert f l i y y H)). lia.
Qed.

Lemma work_left_step (n : nat) (s s' : state) (l : label) :
  quiet l = true -> step n s l = Some s' ->
  (work_left n s' < work_left n s)%nat.
Proof.
  intros Hq H. unfold work_left.
  step_inv H; try discriminate Hq; simpl; unfold worker_return, spawn; simpl;
    repeat match goal with
    | |- context [if ?b then _ else _] => destruct b eqn:?; simpl
    end; bool_facts; subst;
    rewrite ?length_app, ?sum_list_with_app; simpl; try lia.
  all: try match goal with
       | Hw : workers _ !! ?w = Some ?y |- context [sum_list_with _ (<[?w := ?x]> _)] =>
           pose proof (sum_list_with_insert worker_weight _ _ x _ Hw) as Hs;
           simpl in Hs
       end.
  all: try match goal with
       | Hw : workers _ !! ?w = Some ?y |- _ =>
           pose proof (sum_list_with_lookup worker_weight _ _ _ Hw) as Hl;
           simpl in Hl
       end.
  all: try match goal with E : buf _ = _ |- _ => rewrite ?E in * end; simpl in *; try lia.
  all: simplify_eq.
Qed.

Lemma work_left_run (n : nat) (s s' : state) (tr : list label) :
  forallb quiet tr = true -> run n s tr = Some s' ->
  (length tr + work_left n s' <= work_left n s)%nat.
Proof.
  revert s. induction tr as [|l tr IH]; intros s Hq Hrun; simpl in Hrun, Hq.
  - injection Hrun as <-. simpl. lia.
  - apply andb_prop in Hq as [Hl Hq].
    destruct (step n s l) as [s1|] eqn:Hstep; [|done].
    pose proof (work_left_step _ _ _ _ Hl Hstep).
    specialize (IH s1 Hq Hrun). simpl. lia.
Qed.


Lemma undisturbed_signal_step (n : nat) (s s' : state) (l : label) :
  stops s = [] /\ dones s = [false] /\ done s = O ->
  (forall w j, workers s !! w <> Some (WRequest j true)) ->
  quiet l = true -> step n s l = Some s' ->
  (stops s' = [] /\ dones s' = [false] /\ done s' = O) /\
  (forall w j, workers s' !! w <> Some (WRequest j true)).
Proof.
  intros (Hst & Hds & Hd) Hno Hq H.
  assert (Hopen : chan_closed s (done s) = false)
    by (unfold chan_closed; by rewrite Hds, Hd).
  assert (Hnone : find_sender (done s) (stops s) = None) by (by rewrite Hst).
  step_inv H; try discriminate Hq; simpl; unfold worker_return, spawn; simpl;
    repeat match goal with
    | |- context [if ?b then _ else _] => destruct b eqn:?; simpl
    end; try congruence; try (split; [done | exact Hno]).
  all: try (exfalso; eapply Hno; eassumption).
  all: split; [done|]; intros w' j' Hw'.
  all: try (apply lookup_app_Some in Hw' as [Hw'|[_ Hw']];
            [by eapply Hno | by destruct (w' - length (workers s))%nat as [|[|]]]).
  all: apply list_lookup_insert_Some in Hw' as [(_ & [=] & _)|[_ Hw']]; by eapply Hno.
Qed.

Lemma undisturbed_pool_step (n : nat) (s s' : state) (l : label) :
  match main s with
  | MWgroup i => length (workers s) = i /\ (i <= n)%nat
  | _ => length (workers s) = n
  end ->
  quiet l = true -> step n s l = Some s' ->
  match main s' with
  | MWgroup i => length (workers s') = i /\ (i <= n)%nat
  | _ => length (workers s') = n
  end.
Proof.
  intros Hm Hq H.
  step_inv H; try discriminate Hq; simpl in *; unfold worker_return, spawn; simpl;
    repeat match goal with
    | |- context [if ?b then _ else _] => destruct b eqn:?; simpl
    end; bool_facts; rewrite ?length_insert, ?length_app; simpl; try exact Hm; try lia.
  all: match goal with E : main _ = _ |- _ => by rewrite E end.
Qed.

Lemma elem_of_insert_inv {A : Type} (l : list A) (i : nat) (x y : A) :
  y ∈ <[i := x]> l -> y = x \/ y ∈ l.
Proof.
  intros [j Hj]%list_elem_of_lookup.
  apply list_lookup_insert_Some in Hj as [(_ & -> & _)|[_ Hj]]; [by left|].
  right. eapply list_elem_of_lookup_2; eassumption.
Qed.

Lemma undisturbed_exited_step (n : nat) (s s' : state) (l : label) :
  well_synchronised s ->
  (forall w j, workers s !! w <> Some (WRequest j true)) ->
  (WExited ∈ workers s -> qclosed (queue s) = true /\ buf (queue s) = []) ->
  quiet l = true -> step n s l = Some s' ->
  WExited ∈ workers s' -> qclosed (queue s') = true /\ buf (queue s') = [].
Proof.
  intros (_ & _ & Hmain & _) Hno Hex Hq H.
  step_inv H; try discriminate Hq; simpl in *; unfold worker_return, spawn; simpl;
    repeat match goal with
    | |- context [if ?b then _ else _] => destruct b eqn:?; simpl
    end; bool_facts; try exact Hex.
  all: try (exfalso; eapply Hno; eassumption).
  all: intros Hin.
  all: try (apply elem_of_app in Hin as [Hin|Hin];
            [|apply list_elem_of_singleton in Hin; discriminate Hin]).
  all: try (apply elem_of_insert_inv in Hin as [Hin|Hin]; [try discriminate Hin|]).
  all: try (specialize (Hex Hin)).
  all: try (destruct Hex as [Hc Hb]; simpl in *; congruence).
  all: try (destruct Hmain; destruct Hex; congruence).
  all: try done.
Qed.


Lemma held_jobs_app (a b : list wstate) : held_jobs (a ++ b) = held_jobs a ++ held_jobs b.
Proof. unfold held_jobs. apply flat_map_app. Qed.

Lemma held_jobs_insert (ws : list wstate) (w : nat) (x y : wstate) :
  ws !! w = Some y ->
  held_jobs (<[w := x]> ws) ++ held (Some y) ≡ₚ held_jobs ws ++ held (Some x).
Proof.
  revert w. induction ws as [|a ws IH]; intros w; [done|].
  destruct w as [|w]; simpl.
  - intros [= ->]. unfold held_jobs. simpl. solve_Permutation.
  - intros H. specialize (IH _ H). unfold held_jobs in *. simpl.
    rewrite <- !app_assoc. by rewrite IH.
Qed.

Lemma undisturbed_jobs_step (n : nat) (s s' : state) (l : label) :
  quiet l = true -> step n s l = Some s' -> halted s' = None ->
  pending (producer s') ++ buf (queue s') ++ held_jobs (workers s')
    ++ printed_requests (out s')
  ≡ₚ pending (producer s) ++ buf (queue s) ++ held_jobs (workers s)
    ++ printed_requests (out s).
Proof.
  intros Hq H Hh.
  step_inv H; try discriminate Hq; simpl in *; unfold worker_return, spawn in *;
    simpl in *;
    repeat match goal with
    | |- context [if ?b then _ else _] => destruct b eqn:?; simpl in *
    end; bool_facts; subst; try discriminate Hh;
    rewrite ?printed_requests_app, ?held_jobs_app, ?app_nil_r; simpl;
    rewrite ?app_nil_r; try done.
  all: try match goal with
       | Hw : workers _ !! ?w = Some ?y |- context [held_jobs (<[?w := ?x]> _)] =>
           pose proof (held_jobs_insert _ _ x _ Hw) as Hp; simpl in Hp;
           rewrite ?app_nil_r in Hp
       end.
  all: try match goal with E : buf _ = _ |- _ => rewrite ?E end.
  all: try (rewrite Hp; solve_Permutation).
  all: try (rewrite <- Hp; solve_Permutation).
  all: try solve_Permutation.
  all: apply Permutation_app_inv_r in Hp; by rewrite Hp.
Qed.


Lemma quiet_step_running (n : nat) (s s' : state) (l : label) :
  well_synchronised s -> quiet l = true -> step n s l = Some s' -> halted s' = None.
Proof.
  intros Hws Hq H.
  destruct (well_synchronised_step _ _ _ _ Hws H) as (_ & _ & _ & Hno).
  destruct (halted s') as [code|] eqn:E; [|done].
  assert (code <> 2) by congruence.
  destruct (ends_with_step _ _ _ _ _ H E) as [[[_ ->]|[_ [->|(w & j & ->)]]] _];
    [done|discriminate Hq..].
Qed.

Lemma undisturbed_step (n c : nat) (jobs : list Z) (s s' : state) (l : label) :
  undisturbed n c jobs s -> quiet l = true -> step n s l = Some s' ->
  undisturbed n c jobs s'.
Proof.
  intros (Hh & Hsig & Hws & Hno & Hpool & Hex & Hcap & Hjobs) Hq H.
  pose proof (quiet_step_running _ _ _ _ Hws Hq H) as Hh'.
  destruct (undisturbed_signal_step _ _ _ _ Hsig Hno Hq H) as [Hsig' Hno'].
  split; [exact Hh'|]. split; [exact Hsig'|].
  split; [eapply well_synchronised_step; eassumption|].
  split; [exact Hno'|].
  split; [eapply undisturbed_pool_step; eassumption|].
  split; [eapply undisturbed_exited_step; eassumption|].
  split; [destruct (queue_step _ _ _ _ H) as (_ & -> & _); exact Hcap|].
  rewrite (undisturbed_jobs_step _ _ _ _ Hq H Hh'). exact Hjobs.
Qed.

Lemma undisturbed_run (n c : nat) (jobs : list Z) (tr : list label) (s : state) :
  forallb quiet tr = true -> run n (init c jobs) tr = Some s ->
  undisturbed n c jobs s.
Proof.
  assert (H0 : undisturbed n c jobs (init c jobs)).
  { unfold undisturbed, well_synchronised, held_jobs. simpl.
    repeat split; try done; try lia.
    - by apply not_elem_of_nil in H.
    - by rewrite !app_nil_r. }
  revert H0. generalize (init c jobs) as s0.
  induction tr as [|l tr IH]; intros s0 H0 Hq Hrun; simpl in Hrun, Hq.
  - by injection Hrun as <-.
  - apply andb_prop in Hq as [Hl Hq].
    destruct (step n s0 l) as [s1|] eqn:Hstep; [|done].
    eapply IH; [|exact Hq|exact Hrun]. eapply undisturbed_step; eassumption.
Qed.


Lemma held_jobs_exited (ws : list wstate) :
  Forall (fun x => x = WExited) ws -> held_jobs ws = [].
Proof. induction 1 as [|x ws -> _ IH]; [done|]. exact IH. Qed.

(** Where an undisturbed run can go no further. *)
Lemma undisturbed_at_rest (n c : nat) (jobs : list Z) (s : state) :
  (1 <= n)%nat -> (1 <= c)%nat ->
  undisturbed n c jobs s -> at_rest n s ->
  Forall (fun x => x = WExited) (workers s) /\
  length (workers s) = n /\
  limit s = 0 /\
  buf (queue s) = [] /\ qclosed (queue s) = true /\
  producer s = PDone /\
  printed_requests (out s) ≡ₚ jobs.
Proof.
  intros Hn Hc (Hh & (Hst & Hds & Hd) & (Hlim & Hwg & Hmain & _) & Hno & Hpool & Hex
                & Hcap & Hjobs) Hrest.
  (* a worker that has not returned waits on an empty open queue *)
  assert (Hworker : forall w x, workers s !! w = Some x ->
            x = WExited \/ (buf (queue s) = [] /\ qclosed (queue s) = false)).
  { intros w x Hw. destruct x as [| |ww|ww last|]; [| | | |by left].
    - exfalso. specialize (Hrest (WBegin w) eq_refl). unfold step in Hrest.
      by rewrite Hh, Hw in Hrest.
    - destruct (buf (queue s)) as [|j rest] eqn:Hb.
      + destruct (qclosed (queue s)) eqn:Hq; [exfalso | by right].
        specialize (Hrest (WDrained w) eq_refl). unfold step in Hrest.
        by rewrite Hh, Hw, Hb, Hq in Hrest.
      + exfalso. specialize (Hrest (WDeq w j) eq_refl). unfold step in Hrest.
        by rewrite Hh, Hw, Hb, Z.eqb_refl in Hrest.
    - exfalso. specialize (Hrest (WSel w false) eq_refl).
      unfold step, chan_closed in Hrest.
      by rewrite Hh, Hw, Hds, Hd, Hst in Hrest.
    - exfalso. destruct last; [by eapply Hno|].
      specialize (Hrest (WReq w ww true) eq_refl). unfold step in Hrest.
      by rewrite Hh, Hw, Z.eqb_refl in Hrest. }
  destruct (main s) as [i| |] eqn:Hm.
  - (* main is still in wgroup: it has started all its workers and waits for
       the producer, which is blocked on a full queue; a worker can move *)
    exfalso. destruct Hpool as [Hlen Hi].
    assert (i = n) as ->.
    { destruct (decide (i < n)%nat) as [Hlt|]; [|lia].
      specialize (Hrest MainSpawn eq_refl). unfold step in Hrest.
      rewrite Hh, Hm in Hrest. apply Nat.ltb_lt in Hlt. by rewrite Hlt in Hrest. }
    destruct (lookup_lt_is_Some_2 (workers s) 0%nat) as [x Hx]; [lia|].
    destruct (producer s) as [[|j todo]|] eqn:Hp.
    + specialize (Hrest ProducerExit eq_refl). unfold step in Hrest.
      rewrite Hh, Hp, Hwg in Hrest. done.
    + specialize (Hrest (Enq j) eq_refl). unfold step in Hrest.
      rewrite Hh, Hp, Z.eqb_refl, Hmain in Hrest. simpl in Hrest.
      destruct (length (buf (queue s)) <? cap (queue s))%nat eqn:Hfull; [done|].
      apply Nat.ltb_ge in Hfull.
      destruct (Hworker _ _ Hx) as [->|[Hb _]].
      * destruct Hex as [Hcl _]; [eapply list_elem_of_lookup_2; eassumption|].
        congruence.
      * rewrite Hb in Hfull. simpl in Hfull. lia.
    + specialize (Hrest MainWait eq_refl). unfold step in Hrest.
      rewrite Hh, Hm, Hwg in Hrest.
      replace (n <? n)%nat with false in Hrest by (symmetry; apply Nat.ltb_ge; lia).
      done.
  - (* main is about to close the queue: it can *)
    exfalso. destruct Hmain as [Hq _].
    specialize (Hrest MainClose eq_refl). unfold step in Hrest.
    by rewrite Hh, Hm, Hq in Hrest.
  - (* main has closed the queue *)
    destruct Hmain as [Hq Hp].
    assert (Hall : Forall (fun x => x = WExited) (workers s)).
    { apply Forall_lookup. intros w x Hw.
      destruct (Hworker _ _ Hw) as [->|[_ Hopen]]; [done | congruence]. }
    destruct (lookup_lt_is_Some_2 (workers s) 0%nat) as [x Hx]; [lia|].
    assert (x = WExited) as -> by (by eapply (Forall_lookup_1 _ _ _ _ Hall)).
    destruct Hex as [_ Hb]; [eapply list_elem_of_lookup_2; eassumption|].
    split; [exact Hall|]. split; [exact Hpool|].
    split; [rewrite Hlim; apply live_zero in Hall; by rewrite Hall|].
    split; [exact Hb|]. split; [exact Hq|]. split; [exact Hp|].
    rewrite Hp, Hb, (held_jobs_exited _ Hall) in Hjobs. exact Hjobs.
Qed.

(** X11.  For every queue capacity and every pool size of at least 1 and
    every list of jobs: an undisturbed execution of the program (no
    request on [/stop], [/start] or [/worker/add], no failing downstream
    call, the process alive) has at most [4 * jobs + 3 * workers + 3]
    steps, and when it can go no further every job has been executed
    exactly once (the printed requests are a permutation of the jobs), all
    workers of the pool have returned, [limit] is 0 and the queue is closed
    and empty.  In particular the producer, [main] and the workers never
    block each other for good. *)
Theorem pool_drains_every_job (n c : nat) (jobs : list Z) (tr : list label) (s : state) :
  (1 <= n)%nat -> (1 <= c)%nat ->
  forallb quiet tr = true ->
  run n (init c jobs) tr = Some s ->
  (length tr <= 4 * length jobs + 3 * n + 3)%nat /\
  (at_rest n s ->
     printed_requests (out s) ≡ₚ jobs /\
     Forall (fun x => x = WExited) (workers s) /\
     length (workers s) = n /\
     limit s = 0 /\
     buf (queue s) = [] /\ qclosed (queue s) = true).
Proof.
  intros Hn Hc Hq Hrun. split.
  - pose proof (work_left_run _ _ _ _ Hq Hrun) as H.
    unfold work_left at 2 in H. simpl in H. lia.
  - intros Hrest.
    destruct (undisturbed_at_rest n c jobs s Hn Hc (undisturbed_run _ _ _ _ _ Hq Hrun)
                Hrest) as (H1 & H2 & H3 & H4 & H5 & _ & H7).
    repeat split; assumption.
Qed.

Lemma pool_drains_every_job_witness :
  exists s, run 2 (init 1 [7; 8])
              [MainSpawn; MainSpawn; WBegin 0; WBegin 1; Enq 7; WDeq 1 7; Enq 8;
               WDeq 0 8; WSel 0 false; WReq 0 8 true; WSel 1 false; WReq 1 7 true;
               ProducerExit; MainWait; MainClose; WDrained 0; WDrained 1] = Some s /\
            at_rest 2 s /\
            printed_requests (out s) ≡ₚ [7; 8].
Proof.
  eexists. split; [vm_compute; reflexivity|].
  assert (Hrest : at_rest 2
            (with_workers [WExited; WExited]
               (with_limit 0 (with_producer PDone (with_main MReturn (with_wg 0
                  (with_queue {| buf := []; cap := 1; qclosed := true |}
                     (print (OutRequest 7) (print (OutRequest 8) (init 1 [7; 8]))))))))))
    by (apply at_rest_successors; vm_compute; reflexivity).
  split; [exact Hrest|].
  refine (proj1 (proj2 (pool_drains_every_job 2 1 [7; 8]
            [MainSpawn; MainSpawn; WBegin 0; WBegin 1; Enq 7; WDeq 1 7; Enq 8;
             WDeq 0 8; WSel 0 false; WReq 0 8 true; WSel 1 false; WReq 1 7 true;
             ProducerExit; MainWait; MainClose; WDrained 0; WDrained 1] _ _ _ _ _) Hrest));
    [lia | lia | reflexivity | vm_compute; reflexivity].
Defined.


(** *** A pool of one worker *)

Lemma workers_length_run (n : nat) (s s' : state) (tr : list label) :
  run n s tr = Some s' -> (length (workers s) <= length (workers s'))%nat.
Proof.
  revert s. induction tr as [|l tr IH]; intros s Hrun; simpl in Hrun.
  - by injection Hrun as <-.
  - destruct (step n s l) as [s1|] eqn:Hstep; [|done].
    destruct (pool_step _ _ _ _ Hstep) as (Hlen & _). specialize (IH _ Hrun). lia.
Qed.

Lemma one_worker_labels (n : nat) (s s' : state) (tr : list label) :
  run n s tr = Some s' -> (length (workers s') <= 1)%nat ->
  delivered tr = delivered_to 0 tr /\ executed tr = executed_by 0 tr.
Proof.
  revert s. induction tr as [|l tr IH]; intros s Hrun Hlen; simpl in Hrun; [done|].
  destruct (step n s l) as [s1|] eqn:Hstep; [|done].
  destruct (IH _ Hrun Hlen) as [IHd IHe].
  pose proof (workers_length_run _ _ _ _ Hrun) as Hmono.
  destruct (pool_step _ _ _ _ Hstep) as (Hl1 & _).
  assert (Hw : forall w x, workers s !! w = Some x -> w = 0%nat).
  { intros w x Hx. apply lookup_lt_Some in Hx. lia. }
  unfold delivered in *.
  destruct l as [| | | | | | | |?|w j|?|? ?|w j []| | | | |]; simpl; try done.
  - step_inv Hstep. rewrite (Hw w _ ltac:(eassumption)). simpl.
    split; [by f_equal | done].
  - step_inv Hstep; rewrite (Hw w _ ltac:(eassumption)); simpl;
      (split; [done | by f_equal]).
Qed.

Lemma held_run (n c : nat) (jobs : list Z) (tr : list label) (s : state) (w : nat) :
  run n (init c jobs) tr = Some s ->
  delivered_to w tr = executed_by w tr ++ held (workers s !! w).
Proof.
  revert s. apply (run_invariant n (fun tr s =>
    delivered_to w tr = executed_by w tr ++ held (workers s !! w))); [done|].
  intros tr' s1 l s2 Hr1 IH Hstep.
  assert (Hlim : limit s1 = Z.of_nat (live (workers s1)))
    by (eapply limit_live_run; [|exact Hr1]; reflexivity).
  rewrite delivered_to_app, executed_by_app, IH, <- !app_assoc.
  by rewrite (held_step _ _ _ _ w Hlim Hstep).
Qed.

Lemma printed_run (n c : nat) (jobs : list Z) (tr : list label) (s : state) :
  run n (init c jobs) tr = Some s -> printed_requests (out s) = executed tr.
Proof.
  revert s. apply (run_invariant n (fun tr s =>
    printed_requests (out s) = executed tr)); [done|].
  intros tr' s1 l s2 _ IH Hstep.
  destruct (output_step _ _ _ _ Hstep) as (H1 & _).
  by rewrite executed_app, H1, IH.
Qed.

(** X12.  As long as the pool has a single worker, in every execution of
    the program (with [/stop], failures and all) the jobs are worked off in
    the order of the producer: at every moment the jobs of the program
    are, in this order, those already printed as executed, the one the
    worker holds, those buffered in the queue and those still to be
    sent. *)
Theorem single_worker_keeps_order (n c : nat) (jobs : list Z) (tr : list label) (s : state) :
  run n (init c jobs) tr = Some s ->
  (length (workers s) <= 1)%nat ->
  jobs = printed_requests (out s) ++ held (workers s !! 0%nat)
         ++ buf (queue s) ++ pending (producer s).
Proof.
  intros Hrun Hlen.
  destruct (one_worker_labels _ _ _ _ Hrun Hlen) as [Hd He].
  pose proof (held_run _ _ _ _ _ 0%nat Hrun) as Hh.
  pose proof (printed_run _ _ _ _ _ Hrun) as Hp.
  destruct (queue_run _ _ _ _ Hrun) as (Hq & _). simpl in Hq.
  pose proof (producer_run _ _ _ _ Hrun) as Hpr. simpl in Hpr.
  rewrite <- Hpr, Hq, Hd, Hh, Hp, He, <- !app_assoc. reflexivity.
Qed.

Lemma single_worker_keeps_order_witness :
  exists s, run default_workers (init 2 [1; 2; 3; 4])
              [MainSpawn; WBegin 0; Enq 1; WDeq 0 1; Enq 2; WSel 0 false; WReq 0 1 true;
               WDeq 0 2; Enq 3] = Some s /\
            (length (workers s) <= 1)%nat /\
            [1; 2; 3; 4] = printed_requests (out s) ++ held (workers s !! 0%nat)
                           ++ buf (queue s) ++ pending (producer s).
Proof.
  eexists. split; [vm_compute; reflexivity|]. split; [simpl; lia|].
  refine (single_worker_keeps_order default_workers 2 [1; 2; 3; 4]
    [MainSpawn; WBegin 0; Enq 1; WDeq 0 1; Enq 2; WSel 0 false; WReq 0 1 true;
     WDeq 0 2; Enq 3] _ _ _); [vm_compute; reflexivity | simpl; lia].
Defined.


(** *** A pool whose workers have all returned *)

Lemma idle_pool_step (n : nat) (s s' : state) (l : label) :
  Forall (fun x => x = WExited) (workers s) ->
  is_spawn l = false -> step n s l = Some s' ->
  workers s' = workers s /\ delivered [l] = [] /\ executed [l] = [].
Proof.
  intros Hall Hl H.
  assert (Hex : forall w x, workers s !! w = Some x -> x = WExited)
    by (intros w x Hw; by eapply (Forall_lookup_1 _ _ _ _ Hall)).
  step_inv H; try discriminate Hl; simpl; unfold worker_return; simpl;
    repeat match goal with
    | |- context [if ?b then _ else _] => destruct b eqn:?; simpl
    end; try done.
  all: match goal with
       | Hw : workers _ !! _ = Some _ |- _ => by apply Hex in Hw
       end.
Qed.

(** X13.  A pool whose workers have all returned (stopped, or drained)
    consumes nothing until a worker is added: in every execution without a
    step of [wgroup] or [/worker/add], whatever else happens, no job is
    taken from the queue or executed, the workers stay as they are, and
    the queue only grows by what the producer still manages to send. *)
Theorem idle_pool_takes_no_job (n : nat) (s s' : state) (tr : list label) :
  Forall (fun x => x = WExited) (workers s) ->
  forallb (fun l => negb (is_spawn l)) tr = true ->
  run n s tr = Some s' ->
  workers s' = workers s /\
  delivered tr = [] /\ executed tr = [] /\
  buf (queue s') = buf (queue s) ++ enqueued tr.
Proof.
  intros Hall Hq Hrun.
  assert (H : workers s' = workers s /\ delivered tr = [] /\ executed tr = []).
  { revert s Hall Hrun. induction tr as [|l tr IH]; intros s Hall Hrun;
      simpl in Hrun, Hq.
    - by injection Hrun as <-.
    - apply andb_prop in Hq as [Hl Hq]. apply negb_true_iff in Hl.
      destruct (step n s l) as [s1|] eqn:Hstep; [|done].
      destruct (idle_pool_step _ _ _ _ Hall Hl Hstep) as (Hw & Hd & He).
      rewrite <- Hw in Hall. destruct (IH Hq s1 Hall Hrun) as (Hw' & Hd' & He').
      split; [congruence|]. change (l :: tr) with ([l] ++ tr).
      by rewrite delivered_app, executed_app, Hd, He, Hd', He'. }
  destruct H as (Hw & Hd & He). split; [exact Hw|]. split; [exact Hd|].
  split; [exact He|].
  destruct (queue_run _ _ _ _ Hrun) as (Hc & _). by rewrite Hd in Hc.
Qed.

Lemma idle_pool_takes_no_job_witness :
  exists s s' : state,
    run default_workers (init 10 [0; 1; 2])
      [MainSpawn; WBegin 0; Enq 0; WDeq 0 0; StopCall; WSel 0 true; StopClose 0;
       WReq 0 0 true] = Some s /\
    workers s = [WExited] /\
    run default_workers s [Enq 1; Enq 2; StopCall; ProducerExit] = Some s' /\
    buf (queue s') = buf (queue s) ++ [1; 2].
Proof.
  eexists _, _. split; [vm_compute; reflexivity|]. split; [reflexivity|].
  split; [vm_compute; reflexivity|].
  refine (proj2 (proj2 (proj2 (idle_pool_takes_no_job default_workers _ _
            [Enq 1; Enq 2; StopCall; ProducerExit] _ eq_refl _)))).
  - simpl. repeat constructor.
  - vm_compute. reflexivity.
Defined.


(** *** The signal of a stop *)










End limiter_facts.
